(** * Hound: access control, search fan-out, git synchronisation, config merge

    A shallow embedding of the serving layer of the hound code-search
    service (packages [config], [vcs] and [api]) and the proofs of its
    specified behaviour.

    Conventions of the embedding:
    - a Go [string] is a [string] of bytes, compared with exact equality;
    - a nil-able Go value (pointer, slice, map) is an [option], with [None]
      for nil;
    - a Go [map] is a [gmap]; the order in which [range] visits it is left
      open (class [MapRange]);
    - Go [int] is [Z] with 64-bit wrap-around written out ([wrap_int]);
    - code that can panic returns an outcome with a panic case;
    - external processes, the JSON codec and the goroutine scheduler are
      interfaces (classes [Exec], [JSONCodec], [Scheduler]). *)

From Stdlib Require Import ZArith Ascii String List Lia DecimalString
  DecimalPos.
From stdpp Require Import gmap strings list.

Open Scope string_scope.
Open Scope Z_scope.

(** Go's [error] values are carried as their message. *)
Definition error := string.

(* ===================================================================== *)
(** * Part I. The program                                                 *)
(* ===================================================================== *)

(** ** Go standard-library string functions used by the code *)
Module GoStrings.
Local Open Scope nat_scope.

Definition byte_of (n : nat) : ascii := ascii_of_nat n.
Definition bytes (l : list nat) : string :=
  fold_right (fun n s => String (byte_of n) s) EmptyString l.

Definition LF : ascii := "010"%char.
Definition QUOTE : ascii := "034"%char.

(** [asciiSpace] of package strings: tab, newline, vertical tab, form
    feed, carriage return, space. *)
Definition asciiSpace (c : ascii) : bool :=
  let n := nat_of_ascii c in
  (9 <=? n) && (n <=? 13) || (n =? 32).

(** The non-ASCII code points of [unicode.IsSpace], in UTF-8:
    U+0085, U+00A0, U+1680, U+2000..U+200A, U+2028, U+2029, U+202F,
    U+205F, U+3000. *)
Definition unicodeSpaces : list string :=
  [ bytes [194; 133]; bytes [194; 160]; bytes [225; 154; 128] ] ++
  map (fun k => bytes [226; 128; k]) (seq 128 11) ++
  [ bytes [226; 128; 168]; bytes [226; 128; 169]; bytes [226; 128; 175];
    bytes [226; 129; 159]; bytes [227; 128; 128] ].

Fixpoint stripPrefix (p s : string) : option string :=
  match p, s with
  | EmptyString, _ => Some s
  | String a p', String b s' =>
      if Ascii.eqb a b then stripPrefix p' s' else None
  | String _ _, EmptyString => None
  end.

Fixpoint firstStripped (ps : list string) (s : string) : option string :=
  match ps with
  | [] => None
  | p :: ps' =>
      match stripPrefix p s with
      | Some r => Some r
      | None => firstStripped ps' s
      end
  end.

Fixpoint revString (s acc : string) : string :=
  match s with
  | EmptyString => acc
  | String c s' => revString s' (String c acc)
  end.

(** One leading white-space rune removed, if there is one. *)
Definition dropSpace (spaces : list string) (s : string) : option string :=
  match s with
  | EmptyString => None
  | String c s' =>
      if asciiSpace c then Some s' else firstStripped spaces s
  end.

Fixpoint trimLeftFuel (fuel : nat) (spaces : list string) (s : string)
  : string :=
  match fuel with
  | O => s
  | S fuel' =>
      match dropSpace spaces s with
      | Some r => trimLeftFuel fuel' spaces r
      | None => s
      end
  end.

Definition TrimLeftSpace (s : string) : string :=
  trimLeftFuel (String.length s) unicodeSpaces s.

Definition TrimRightSpace (s : string) : string :=
  let r := revString s EmptyString in
  let spaces := map (fun p => revString p EmptyString) unicodeSpaces in
  revString (trimLeftFuel (String.length r) spaces r) EmptyString.

(** [strings.TrimSpace]: leading and trailing Unicode white space
    removed. *)
Definition TrimSpace (s : string) : string :=
  TrimRightSpace (TrimLeftSpace s).

(** [strings.Split(s, ",")]: the pieces between the commas, one more
    than there are commas. *)
Fixpoint splitComma (s cur : string) : list string :=
  match s with
  | EmptyString => [revString cur EmptyString]
  | String c s' =>
      if Ascii.eqb c ","%char
      then revString cur EmptyString :: splitComma s' EmptyString
      else splitComma s' (String c cur)
  end.

Definition SplitComma (s : string) : list string := splitComma s EmptyString.

(** [strings.Index(s, ":")], as the cut it is used for: the text before
    the first colon and the text after it, or nothing (index -1). *)
Fixpoint cutColon (s before : string) : option (string * string) :=
  match s with
  | EmptyString => None
  | String c s' =>
      if Ascii.eqb c ":"%char then Some (revString before EmptyString, s')
      else cutColon s' (String c before)
  end.

Definition CutColon (s : string) : option (string * string) :=
  cutColon s EmptyString.

(** [strings.Split(s, ", ")]: cut at each comma followed by a space, from
    the left. *)
Fixpoint splitCommaSpace (s cur : string) : list string :=
  match s with
  | EmptyString => [revString cur EmptyString]
  | String c s' =>
      match Ascii.eqb c ","%char, s' with
      | true, String d rest =>
          if Ascii.eqb d " "%char
          then revString cur EmptyString :: splitCommaSpace rest EmptyString
          else splitCommaSpace s' (String c cur)
      | _, _ => splitCommaSpace s' (String c cur)
      end
  end.

Definition SplitCommaSpace (s : string) : list string :=
  splitCommaSpace s EmptyString.

Definition HasPrefix (s prefix : string) : bool :=
  match stripPrefix prefix s with
  | Some _ => true
  | None => false
  end.

Definition TrimPrefix (s prefix : string) : string :=
  match stripPrefix prefix s with
  | Some r => r
  | None => s
  end.

Definition stripSuffix (suffix s : string) : option string :=
  match stripPrefix (revString suffix EmptyString)
                    (revString s EmptyString) with
  | Some r => Some (revString r EmptyString)
  | None => None
  end.

Definition HasSuffix (s suffix : string) : bool :=
  match stripSuffix suffix s with
  | Some _ => true
  | None => false
  end.

Definition TrimSuffix (s suffix : string) : string :=
  match stripSuffix suffix s with
  | Some r => r
  | None => s
  end.

(** Whether a comma followed by a space occurs in the string. *)
Fixpoint containsCommaSpace (s : string) : bool :=
  match s with
  | EmptyString => false
  | String c s' =>
      match Ascii.eqb c ","%char, s' with
      | true, String d _ =>
          if Ascii.eqb d " "%char then true else containsCommaSpace s'
      | _, _ => containsCommaSpace s'
      end
  end.






(** [strings.ToLower]: a string of ASCII bytes has its letters A to Z
    lowered byte by byte; any other string goes through
    [strings.Map(unicode.ToLower, s)], which needs the Unicode tables. *)
Class UnicodeLower := {
  MapToLower : string -> string
}.

Definition isASCIIByte (c : ascii) : bool := nat_of_ascii c <? 128.

Fixpoint isASCII (s : string) : bool :=
  match s with
  | EmptyString => true
  | String c s' => isASCIIByte c && isASCII s'
  end.

Definition lowerByte (c : ascii) : ascii :=
  let n := nat_of_ascii c in
  if (65 <=? n) && (n <=? 90) then ascii_of_nat (n + 32) else c.

Fixpoint asciiLower (s : string) : string :=
  match s with
  | EmptyString => EmptyString
  | String c s' => String (lowerByte c) (asciiLower s')
  end.

Definition ToLower `{UnicodeLower} (s : string) : string :=
  if isASCII s then asciiLower s else MapToLower s.

(** The verb %d of [fmt] on an integer. *)
Definition showInt (z : Z) : string :=
  match z with
  | Z0 => "0"
  | Zpos p => NilEmpty.string_of_uint (Pos.to_uint p)
  | Zneg p => String "-"%char (NilEmpty.string_of_uint (Pos.to_uint p))
  end.

End GoStrings.

(** ** Package config *)
Module Config.

Definition defaultMsBetweenPoll : Z := 30000.
Definition defaultMaxConcurrentIndexers : Z := 2.
Definition defaultPushEnabled : bool := false.
Definition defaultPollEnabled : bool := true.
Definition defaultVcs : string := "git".
Definition defaultBaseUrl : string := "{url}/blob/{rev}/{path}{anchor}".
Definition defaultAnchor : string := "#L{line}".
Definition defaultHealthCheckURI : string := "/healthz".

Record UrlPattern := mkUrlPattern {
  BaseUrl : string;
  Anchor : string
}.

(** [SecretMessage] is a byte slice holding JSON text. *)
Definition SecretMessage := string.

Record Repo := mkRepo {
  AccessKeys : option (list string);
  OAuthAuthorization : option bool;
  Url : string;
  MsBetweenPolls : Z;
  Vcs : string;
  VcsConfigMessage : option SecretMessage;
  UrlPattern_ : option UrlPattern;
  ExcludeDotFiles : bool;
  EnablePollUpdates : option bool;
  EnablePushUpdates : option bool
}.

Definition optionToBool (val : option bool) (def : bool) : bool :=
  match val with
  | None => def
  | Some b => b
  end.

Fixpoint iterateCompare (iterator : list string) (value : string) : bool :=
  match iterator with
  | [] => false
  | candidate :: rest =>
      if String.eqb candidate value then true
      else iterateCompare rest value
  end.

Definition CheckAccess (r : Repo) (accessKey : string)
    (repoURLs : list string) : bool :=
  match AccessKeys r with
  | Some keys =>
      if iterateCompare keys accessKey then true else false
  | None =>
      match OAuthAuthorization r with
      | Some _ =>
          if iterateCompare repoURLs (Url r) then true else false
      | None => true
      end
  end.

(** The same repository with another OAuth marker. *)
Definition withOAuth (o : option bool) (r : Repo) : Repo :=
  mkRepo (AccessKeys r) o (Url r) (MsBetweenPolls r) (Vcs r)
         (VcsConfigMessage r) (UrlPattern_ r) (ExcludeDotFiles r)
         (EnablePollUpdates r) (EnablePushUpdates r).

Definition PollUpdatesEnabled (r : Repo) : bool :=
  optionToBool (EnablePollUpdates r) defaultPollEnabled.

Definition PushUpdatesEnabled (r : Repo) : bool :=
  optionToBool (EnablePushUpdates r) defaultPushEnabled.

Definition VcsConfig (r : Repo) : option string :=
  match VcsConfigMessage r with
  | None => None
  | Some m => Some m
  end.

Definition initRepo (r : Repo) : Repo :=
  let ms := if MsBetweenPolls r =? 0 then defaultMsBetweenPoll
            else MsBetweenPolls r in
  let vcs := if String.eqb (Vcs r) EmptyString then defaultVcs else Vcs r in
  let pat :=
    match UrlPattern_ r with
    | None => mkUrlPattern defaultBaseUrl defaultAnchor
    | Some p =>
        mkUrlPattern
          (if String.eqb (BaseUrl p) EmptyString then defaultBaseUrl
           else BaseUrl p)
          (if String.eqb (Anchor p) EmptyString then defaultAnchor
           else Anchor p)
    end in
  mkRepo (AccessKeys r) (OAuthAuthorization r) (Url r) ms vcs
         (VcsConfigMessage r) (Some pat) (ExcludeDotFiles r)
         (EnablePollUpdates r) (EnablePushUpdates r).

(** *** Iteration over a Go map

    [range] visits every entry of a map once, in an order the language
    leaves open. *)
Class MapRange := {
  range : forall {A : Type}, gmap string A -> list (string * A);
  range_perm : forall (A : Type) (m : gmap string A),
    range m ≡ₚ map_to_list m
}.

(** A Go map value: [None] is the nil map, which reads as empty and
    panics on assignment. *)
Definition go_lookup {V : Type} (m : option (gmap string V)) (k : string)
  : option V :=
  match m with
  | None => None
  | Some m' => m' !! k
  end.

Definition go_range `{MapRange} {V : Type} (m : option (gmap string V))
  : list (string * V) :=
  match m with
  | None => []
  | Some m' => range m'
  end.

(** *** encoding/json, as far as the merge uses it

    [Unmarshal] decodes a blob into a fresh string-keyed map (left nil by
    the JSON text null); [Marshal] encodes such a map. *)
Class JSONCodec := {
  JVal : Type;
  Unmarshal : string -> error + option (gmap string JVal);
  Marshal : option (gmap string JVal) -> error + string
}.

Record Config := mkConfig {
  DbPath : string;
  Title : string;
  Repos : gmap string Repo;
  MaxConcurrentIndexers : Z;
  HealthCheckURI : string;
  VCSConfigMessages : gmap string (option SecretMessage)
}.

(** Result of a step that may fail with an error or panic. *)
Inductive result (A : Type) : Type :=
| Done (a : A)
| Fail (e : error)
| Panic.
Arguments Done {A} a.
Arguments Fail {A} e.
Arguments Panic {A}.

Definition bind {A B : Type} (c : result A) (k : A -> result B) : result B :=
  match c with
  | Done a => k a
  | Fail e => Fail e
  | Panic => Panic
  end.

(** What [mergeVCSConfigs] leaves behind: the configuration as mutated so
    far and the returned error, or a panic. *)
Inductive outcome : Type :=
| Returned (cfg : Config) (err : option error)
| Panicked.

Definition withVcsConfigMessage (m : option SecretMessage) (r : Repo)
  : Repo :=
  mkRepo (AccessKeys r) (OAuthAuthorization r) (Url r) (MsBetweenPolls r)
         (Vcs r) m (UrlPattern_ r) (ExcludeDotFiles r)
         (EnablePollUpdates r) (EnablePushUpdates r).

Definition withRepos (rs : gmap string Repo) (c : Config) : Config :=
  mkConfig (DbPath c) (Title c) rs (MaxConcurrentIndexers c)
           (HealthCheckURI c) (VCSConfigMessages c).

Section Merge.
Context `{MapRange} `{JSONCodec}.

(** First loop of [mergeVCSConfigs]: decode every global blob. *)
Fixpoint decodeGlobals (l : list (string * option SecretMessage))
    (globalConfigVals : gmap string (option (gmap string JVal)))
  : result (gmap string (option (gmap string JVal))) :=
  match l with
  | [] => Done globalConfigVals
  | (vcs, configBytes) :: l' =>
      match configBytes with
      | None => Panic
      | Some b =>
          match Unmarshal b with
          | inl e => Fail e
          | inr configVals =>
              decodeGlobals l' (<[vcs := configVals]> globalConfigVals)
          end
      end
  end.

(** Innermost loop: every global entry whose name the repository's map
    lacks is assigned into it. *)
Fixpoint fillMissing (l : list (string * JVal))
    (repoVals : option (gmap string JVal))
  : result (option (gmap string JVal)) :=
  match l with
  | [] => Done repoVals
  | (name, val) :: l' =>
      match go_lookup repoVals name with
      | Some _ => fillMissing l' repoVals
      | None =>
          match repoVals with
          | None => Panic
          | Some m => fillMissing l' (Some (<[name := val]> m))
          end
      end
  end.

Definition decodeRepoVals (repoBytes : option string)
  : result (option (gmap string JVal)) :=
  match repoBytes with
  | None => Done (Some ∅)
  | Some b =>
      if (String.length b =? 0)%nat then Done (Some ∅)
      else match Unmarshal b with
           | inl e => Fail e
           | inr v => Done v
           end
  end.

(** Body of the loop over the repositories. *)
Definition mergeRepo
    (globalConfigVals : gmap string (option (gmap string JVal)))
    (repo : Repo) : result Repo :=
  match globalConfigVals !! Vcs repo with
  | None => Done repo
  | Some globalVals =>
      bind (decodeRepoVals (VcsConfig repo)) (fun repoVals =>
      bind (fillMissing (go_range globalVals) repoVals) (fun merged =>
      match Marshal merged with
      | inl e => Fail e
      | inr repoBytes => Done (withVcsConfigMessage (Some repoBytes) repo)
      end))
  end.

Fixpoint mergeLoop
    (globalConfigVals : gmap string (option (gmap string JVal)))
    (l : list (string * Repo)) (repos : gmap string Repo)
  : result unit * gmap string Repo :=
  match l with
  | [] => (Done tt, repos)
  | (name, repo) :: l' =>
      match mergeRepo globalConfigVals repo with
      | Done repo' =>
          mergeLoop globalConfigVals l' (<[name := repo']> repos)
      | Fail e => (Fail e, repos)
      | Panic => (Panic, repos)
      end
  end.

Definition mergeVCSConfigs (cfg : Config) : outcome :=
  if (size (VCSConfigMessages cfg) =? 0)%nat then Returned cfg None
  else
    match decodeGlobals (range (VCSConfigMessages cfg)) ∅ with
    | Fail e => Returned cfg (Some e)
    | Panic => Panicked
    | Done globalConfigVals =>
        match mergeLoop globalConfigVals (range (Repos cfg)) (Repos cfg)
        with
        | (Done _, repos) => Returned (withRepos repos cfg) None
        | (Fail e, repos) => Returned (withRepos repos cfg) (Some e)
        | (Panic, _) => Panicked
        end
    end.

Definition initConfig (c : Config) : outcome :=
  let c1 :=
    mkConfig (DbPath c) (Title c) (Repos c)
             (if MaxConcurrentIndexers c =? 0
              then defaultMaxConcurrentIndexers
              else MaxConcurrentIndexers c)
             (if String.eqb (HealthCheckURI c) EmptyString
              then defaultHealthCheckURI else HealthCheckURI c)
             (VCSConfigMessages c) in
  mergeVCSConfigs c1.
End Merge.

(** The zero value of [Repo]. *)
Definition emptyRepo : Repo :=
  mkRepo None None EmptyString 0 EmptyString None None false None None.

Definition withUrl (u : string) (r : Repo) : Repo :=
  mkRepo (AccessKeys r) (OAuthAuthorization r) u (MsBetweenPolls r)
         (Vcs r) (VcsConfigMessage r) (UrlPattern_ r) (ExcludeDotFiles r)
         (EnablePollUpdates r) (EnablePushUpdates r).

End Config.

(** ** Package config: projects discovered from GitLab *)
Module Gitlab.
Import GoStrings Config.

Record Project := mkProject {
  Url : string;
  Name : string
}.

Record Gitlab := mkGitlab {
  Key : string;
  Url_ : string;
  Membership : bool;
  Ownership : bool;
  MaxProjects : Z;
  Template : option Repo
}.

(** One answer of the GitLab API: the status code, the projects the JSON
    decoder leaves in the page's list (its error is not looked at), and the
    link header (empty when absent). *)
Record PageResponse := mkPageResponse {
  StatusCode : Z;
  PageProjects : list Project;
  LinkHeader : string
}.

(** The HTTP client: a GET of a URL with an Authorization header, which
    fails (also when the request cannot be built) or answers. *)
Class HttpClient := {
  Net : Type;
  Do : string -> string -> Net -> (error + PageResponse) * Net
}.

(** One entry of a link header: a URL in angle brackets and its
    relation. *)
Definition linkEntry (url rel : string) : string :=
  "<" +:+ url +:+ ">; rel=" +:+ String QUOTE rel
  +:+ String QUOTE EmptyString.

Definition relNext : string :=
  "rel=" +:+ String QUOTE "next" +:+ String QUOTE EmptyString.

Fixpoint linkLoop (rels : list string) (link : string) : string :=
  match rels with
  | [] => link
  | rel :: rels' =>
      if negb (HasSuffix rel relNext) then linkLoop rels' link
      else
        let rel := TrimPrefix rel "<" in
        let rel := TrimSuffix rel (">; " +:+ relNext) in
        linkLoop rels' rel
  end.

Definition getLinkHeaderLink (header : string) : string :=
  linkLoop (SplitCommaSpace header) EmptyString.

(** How a paginated fetch ends: with a result, or still following links
    when the fuel runs out. *)
Inductive fetched (A : Type) : Type :=
| Got (r : error + A)
| OutOfFuel.
Arguments Got {A} r.
Arguments OutOfFuel {A}.

(** The entry a discovered project gets: the template's options, or none,
    and the project's own URL. *)
Definition discovered (g : Gitlab) (p : Project) : Repo :=
  withUrl (Url p) (match Template g with
                   | Some template => template
                   | None => emptyRepo
                   end).

Section Fetch.
Context `{HttpClient}.

Definition firstPage (g : Gitlab) : string :=
  let gitlabUrl := Url_ g +:+ "/api/v4/projects?simple=True" in
  if Ownership g then gitlabUrl +:+ "&ownership=True"
  else if Membership g then gitlabUrl +:+ "&membership=True"
  else gitlabUrl.

(** The loop of [GetProjects], one request per unit of fuel. *)
Fixpoint fetchPages (fuel : nat) (g : Gitlab) (gitlabUrl : string)
    (projects : list Project) (net : Net)
  : fetched (list Project) * Net :=
  match fuel with
  | O => (OutOfFuel, net)
  | S fuel' =>
      match Do gitlabUrl ("Bearer " +:+ Key g) net with
      | (inl e, net') => (Got (inl e), net')
      | (inr r, net') =>
          if negb (StatusCode r =? 200) then
            (Got (inl ("HTTP request failed for " +:+ gitlabUrl
                       +:+ " with status code " +:+ showInt (StatusCode r)
                       +:+ String LF EmptyString)), net')
          else
            let newArray := (projects ++ PageProjects r)%list in
            if String.eqb (LinkHeader r) EmptyString
            then (Got (inr newArray), net')
            else
              let newLink := getLinkHeaderLink (LinkHeader r) in
              if String.eqb newLink EmptyString
              then (Got (inr newArray), net')
              else fetchPages fuel' g newLink newArray net'
      end
  end.

Definition GetProjects (fuel : nat) (g : Gitlab) (net : Net)
  : fetched (list Project) * Net :=
  match fetchPages fuel g (firstPage g) [] net with
  | (Got (inr projects), net') =>
      if negb (MaxProjects g =? 0)
         && (Z.of_nat (length projects) >? MaxProjects g)
      then
        (Got (inl ("Trying to clone "
                   +:+ showInt (Z.of_nat (length projects))
                   +:+ " projects which is larger than the maximum defined "
                   +:+ showInt (MaxProjects g) +:+ String LF EmptyString)),
         net')
      else (Got (inr projects), net')
  | other => other
  end.

(** The API serves the given pages, one after the other, to a client that
    starts at [url] and follows the next links: every page answers 200, all
    but the last name a next link, and the last names none. *)
Fixpoint servesPages (g : Gitlab) (url : string) (pages : list PageResponse)
    (net final : Net) : Prop :=
  match pages with
  | [] => False
  | r :: rest =>
      exists net',
        Do url ("Bearer " +:+ Key g) net = (inr r, net')
        /\ StatusCode r = 200
        /\ match rest with
           | [] =>
               (LinkHeader r = EmptyString
                \/ getLinkHeaderLink (LinkHeader r) = EmptyString)
               /\ final = net'
           | _ :: _ =>
               LinkHeader r <> EmptyString
               /\ getLinkHeaderLink (LinkHeader r) <> EmptyString
               /\ servesPages g (getLinkHeaderLink (LinkHeader r)) rest
                              net' final
           end
  end.

(** The loop of [GetGitlabRepos]: a project whose name is taken is
    skipped (and logged), any other is entered with the template's options,
    or none, and its own URL. [skipped] lists the names logged. *)
Fixpoint addProjects (g : Gitlab) (projects : list Project)
    (repos : gmap string Repo) (skipped : list string)
  : gmap string Repo * list string :=
  match projects with
  | [] => (repos, skipped)
  | proj :: projects' =>
      match repos !! Name proj with
      | Some _ => addProjects g projects' repos (skipped ++ [Name proj])
      | None =>
          let fresh :=
            match Template g with
            | Some template => template
            | None => emptyRepo
            end in
          addProjects g projects'
            (<[Name proj := withUrl (Url proj) fresh]> repos) skipped
      end
  end.

(** What [GetGitlabRepos] does to the map it is given: it panics when the
    projects cannot be fetched. *)
Inductive synced : Type :=
| Synced (repos : gmap string Repo) (skipped : list string)
| SyncPanicked (e : error)
| SyncOutOfFuel.

Definition GetGitlabRepos (fuel : nat) (g : Gitlab)
    (repos : gmap string Repo) (net : Net) : synced * Net :=
  match GetProjects fuel g net with
  | (Got (inr projects), net') =>
      let '(repos', skipped) := addProjects g projects repos [] in
      (Synced repos' skipped, net')
  | (Got (inl e), net') => (SyncPanicked e, net')
  | (OutOfFuel, net') => (SyncOutOfFuel, net')
  end.

End Fetch.
End Gitlab.

(** ** Package vcs: the git driver *)
Module Vcs.
Import GoStrings.

Definition defaultRef : string := "master".

(** How far an [exec.Cmd] read through a stdout pipe gets: [StdoutPipe],
    [Start], [io.Copy], then [Wait]. *)
Inductive PipeTrace : Type :=
| PipeFailed (e : error)
| StartFailed (e : error)
| CopyFailed (e : error)
| Exited (stdout : string) (wait : option error).

(** External processes: a command is run in a directory with arguments,
    changes the world and yields its output and exit error. *)
Class Exec := {
  World : Type;
  CombinedOutput :
    string -> string -> list string -> World
    -> (string * option error) * World;
  PipedOutput :
    string -> string -> list string -> World -> PipeTrace * World
}.

Section Driver.
Context `{Exec}.

(** The state threaded through the driver: the world of processes and
    files, and the lines written with [log.Printf]. *)
Record State := mkState {
  world : World;
  logged : list string
}.

Definition M (A : Type) : Type := State -> A * State.

Definition ret {A : Type} (a : A) : M A := fun st => (a, st).

Definition mbind {A B : Type} (c : M A) (k : A -> M B) : M B :=
  fun st => let '(a, st') := c st in k a st'.

Definition logPrintf (line : string) : M unit :=
  fun st => (tt, mkState (world st) (logged st ++ [line])).

Definition combinedOutput (dir cmd : string) (args : list string)
  : M (string * option error) :=
  fun st =>
    let '(r, w) := CombinedOutput dir cmd args (world st) in
    (r, mkState w (logged st)).

Definition pipedOutput (dir cmd : string) (args : list string)
  : M PipeTrace :=
  fun st =>
    let '(r, w) := PipedOutput dir cmd args (world st) in
    (r, mkState w (logged st)).

Record GitDriver := mkGitDriver {
  DetectRef : bool;
  Ref : string;
  Username : string;
  Password : string;
  refDetetector : string -> M string
}.

Definition HeadRev (g : GitDriver) (dir : string)
  : M (string * option error) :=
  mbind (pipedOutput dir "git" ["rev-parse"; "HEAD"]) (fun t =>
  match t with
  | PipeFailed e => ret (EmptyString, Some e)
  | StartFailed e => ret (EmptyString, Some e)
  | CopyFailed e => ret (EmptyString, Some e)
  | Exited buf wait => ret (TrimSpace buf, wait)
  end).

Definition failedLine (desc dir out : string) : string :=
  "Failed to " +:+ desc +:+ " " +:+ dir +:+ ", see output below"
  +:+ String LF out +:+ "Continuing...".

Definition run (desc dir cmd : string) (args : list string)
  : M (string * option error) :=
  mbind (combinedOutput dir cmd args) (fun r =>
  let '(out, err) := r in
  mbind (match err with
         | Some _ => logPrintf (failedLine desc dir out)
         | None => ret tt
         end) (fun _ =>
  ret (out, None))).

Definition targetRef (g : GitDriver) (dir : string) : M string :=
  mbind (if negb (String.eqb (Ref g) EmptyString) then ret (Ref g)
         else if DetectRef g then refDetetector g dir
         else ret EmptyString) (fun targetRef =>
  if String.eqb targetRef EmptyString then ret defaultRef
  else ret targetRef).

Definition fetchArgs (targetRef : string) : list string :=
  ["fetch"; "--prune"; "--no-tags"; "--depth"; "1"; "origin";
   "+" +:+ targetRef +:+ ":remotes/origin/" +:+ targetRef].

Definition resetArgs (targetRef : string) : list string :=
  ["reset"; "--hard"; "origin/" +:+ targetRef].

Definition Pull (g : GitDriver) (dir : string)
  : M (string * option error) :=
  mbind (targetRef g dir) (fun targetRef =>
  mbind (run "git fetch" dir "git" (fetchArgs targetRef)) (fun r1 =>
  match snd r1 with
  | Some err => ret (EmptyString, Some err)
  | None =>
      mbind (run "git reset" dir "git" (resetArgs targetRef)) (fun r2 =>
      match snd r2 with
      | Some err => ret (EmptyString, Some err)
      | None => HeadRev g dir
      end)
  end)).

(** [headBranchRegexp.FindStringSubmatch]: the leftmost place where
    the text HEAD branch: and a space are followed by at least one
    byte other than a newline; the group is the rest of that line. The
    result is the whole match and the group, or nil. *)
Fixpoint restOfLine (s : string) : string :=
  match s with
  | EmptyString => EmptyString
  | String c s' =>
      if Ascii.eqb c LF then EmptyString else String c (restOfLine s')
  end.

Definition headBranchPrefix : string := "HEAD branch: ".

Fixpoint FindStringSubmatch (s : string) : list string :=
  match s with
  | EmptyString => []
  | String _ s' =>
      match stripPrefix headBranchPrefix s with
      | Some rest =>
          match restOfLine rest with
          | EmptyString => FindStringSubmatch s'
          | branch => [headBranchPrefix +:+ branch; branch]
          end
      | None => FindStringSubmatch s'
      end
  end.

Definition detectRef (dir : string) : M string :=
  mbind (run "git show remote info" dir "git"
             ["remote"; "show"; "origin"]) (fun r =>
  let '(output, err) := r in
  match err with
  | Some e =>
      mbind (logPrintf
               ("error occured when fetching info to determine target ref in "
                +:+ dir +:+ ": " +:+ e
                +:+ ". Will fall back to default ref " +:+ defaultRef))
            (fun _ => ret EmptyString)
  | None =>
      let matches := FindStringSubmatch output in
      if negb (length matches =? 2)%nat then
        mbind (logPrintf
                 ("could not determine target ref in " +:+ dir
                  +:+ ". Will fall back to default ref " +:+ defaultRef))
              (fun _ => ret EmptyString)
      else ret (nth 1 matches EmptyString)
  end).

(** [newGit] on decoded options: the driver gets the head-branch
    detector. *)
Definition newGit (detect : bool) (ref user pass : string) : GitDriver :=
  mkGitDriver detect ref user pass detectRef.

End Driver.
End Vcs.

(** ** Go integers and strconv *)
Module GoInt.

(** Go's [int] on a 64-bit platform: arithmetic wraps into
    [-2^63, 2^63). *)
Definition wrap_int (z : Z) : Z := (z + 2 ^ 63) mod 2 ^ 64 - 2 ^ 63.

Definition maxUint64 : Z := 2 ^ 64 - 1.
Definition wrap_uint64 (z : Z) : Z := z mod 2 ^ 64.

Inductive NumError : Type := ErrSyntax | ErrRange.

(** Loop of [strconv.ParseUint] for base 10: [n] is the value read so
    far, [maxVal] the largest value of the requested bit size. *)
Fixpoint parseDigits (s : string) (maxVal n : Z) : Z * option NumError :=
  match s with
  | EmptyString => (n, None)
  | String c s' =>
      let code := Z.of_nat (nat_of_ascii c) in
      if (48 <=? code) && (code <=? 57) then
        let d := code - 48 in
        if n >=? maxUint64 / 10 + 1 then (maxVal, Some ErrRange)
        else
          let n10 := wrap_uint64 (n * 10) in
          let n1 := wrap_uint64 (n10 + d) in
          if (n1 <? n10) || (n1 >? maxVal) then (maxVal, Some ErrRange)
          else parseDigits s' maxVal n1
      else (0, Some ErrSyntax)
  end.

(** [strconv.ParseUint(s, 10, bitSize)] for [0 < bitSize <= 64]. *)
Definition ParseUint10 (s : string) (bitSize : Z) : Z * option NumError :=
  match s with
  | EmptyString => (0, Some ErrSyntax)
  | _ => parseDigits s (2 ^ bitSize - 1) 0
  end.

(** The number a string of decimal digits writes (from the value [n] of
    the digits before it), or nothing when a byte is not a digit. *)
Fixpoint digitsValue (s : string) (n : Z) : option Z :=
  match s with
  | EmptyString => Some n
  | String c s' =>
      let code := Z.of_nat (nat_of_ascii c) in
      if (48 <=? code) && (code <=? 57)
      then digitsValue s' (10 * n + (code - 48))
      else None
  end.

(** The number a sequence of decimal digits writes, from the value [n] of
    the digits before it. *)
Fixpoint uintValue (d : Decimal.uint) (n : Z) : Z :=
  match d with
  | Decimal.Nil => n
  | Decimal.D0 d' => uintValue d' (10 * n)
  | Decimal.D1 d' => uintValue d' (10 * n + 1)
  | Decimal.D2 d' => uintValue d' (10 * n + 2)
  | Decimal.D3 d' => uintValue d' (10 * n + 3)
  | Decimal.D4 d' => uintValue d' (10 * n + 4)
  | Decimal.D5 d' => uintValue d' (10 * n + 5)
  | Decimal.D6 d' => uintValue d' (10 * n + 6)
  | Decimal.D7 d' => uintValue d' (10 * n + 7)
  | Decimal.D8 d' => uintValue d' (10 * n + 8)
  | Decimal.D9 d' => uintValue d' (10 * n + 9)
  end.

(** The value of a decimal numeral: a non-empty string of digits. *)
Definition decimal (s : string) : option Z :=
  match s with
  | EmptyString => None
  | _ => digitsValue s 0
  end.

End GoInt.

(** ** Package api *)
Module Api.
Import GoStrings GoInt Config.

Definition defaultLinesOfContext : Z := 2.
Definition maxLinesOfContext : Z := 20.

(** [index.SearchOptions], as the search handler fills it. *)
Record SearchOptions := mkSearchOptions {
  IgnoreCase : bool;
  LiteralSearch : bool;
  LinesOfContext : Z;
  FileRegexp : string;
  ExcludeFileRegexp : string;
  Offset : Z;
  Limit : Z
}.

Section Search.
(** The type of one file's matches is declared in package index. *)
Context {FileMatch : Type}.

(** [index.SearchResponse], as far as [searchAll] reads it. *)
Record SearchResponse := mkSearchResponse {
  Matches : option (list FileMatch);
  FilesOpened : Z
}.

(** [searcher.Searcher]: the repository it serves and its [Search]
    method, which yields a response pointer and an error. *)
Record Searcher := mkSearcher {
  Repo_ : Repo;
  Search : string -> SearchOptions
           -> option SearchResponse * option error
}.

Record searchResponse := mkSearchResp {
  repo : string;
  res : option SearchResponse;
  err : option error
}.

(** The order in which the goroutines hand their results to the
    channel: some arrangement of the results. *)
Class Scheduler := {
  completion : list searchResponse -> list searchResponse;
  completion_perm : forall l, completion l ≡ₚ l
}.

(** What [searchAll] returns and leaves in [*filesOpened] and
    [*duration], or a panic. *)
Inductive searchOutcome : Type :=
| SearchReturned (results : option (gmap string SearchResponse))
                 (error_ : option error) (filesOpened duration : Z)
| SearchPanicked.

(** The goroutine body for each repository; a name missing from [idx]
    is a call through a nil searcher. *)
Fixpoint spawn (query : string) (opts : SearchOptions)
    (repos : list string) (idx : gmap string Searcher)
  : option (list searchResponse) :=
  match repos with
  | [] => Some []
  | r :: repos' =>
      match idx !! r, spawn query opts repos' idx with
      | Some s, Some rest =>
          let '(fms, e) := Search s query opts in
          Some (mkSearchResp r fms e :: rest)
      | _, _ => None
      end
  end.

(** The receiving loop, over the results in the order they arrive. *)
Fixpoint collect (ch : list searchResponse)
    (results : gmap string SearchResponse)
    (filesOpened duration elapsed : Z) : searchOutcome :=
  match ch with
  | [] => SearchReturned (Some results) None filesOpened elapsed
  | r :: ch' =>
      match err r with
      | Some e => SearchReturned None (Some e) filesOpened duration
      | None =>
          match res r with
          | None => SearchPanicked
          | Some sr =>
              match Matches sr with
              | None => collect ch' results filesOpened duration elapsed
              | Some _ =>
                  collect ch' (<[repo r := sr]> results)
                          (wrap_int (filesOpened + FilesOpened sr))
                          duration elapsed
              end
          end
      end
  end.

(** [searchAll]; [filesOpened] and [duration] are the values behind the
    two pointers on entry, [elapsed] the milliseconds measured at the
    end. *)
Definition searchAll `{Scheduler} (query : string) (opts : SearchOptions)
    (repos : list string) (idx : gmap string Searcher)
    (filesOpened duration elapsed : Z) : searchOutcome :=
  match spawn query opts repos idx with
  | None => SearchPanicked
  | Some sent => collect (completion sent) ∅ filesOpened duration elapsed
  end.

Section RepoList.
Context `{MapRange}.

Fixpoint wildcardLoop (idx : gmap string Searcher)
    (names : list (string * Searcher)) (accessKey : string)
    (authRepos : list string) (repos : list string) : list string :=
  match names with
  | [] => repos
  | (name, _) :: names' =>
      match idx !! name with
      | Some s =>
          if CheckAccess (Repo_ s) accessKey authRepos
          then wildcardLoop idx names' accessKey authRepos
                            (repos ++ [name])
          else wildcardLoop idx names' accessKey authRepos repos
      | None => wildcardLoop idx names' accessKey authRepos repos
      end
  end.

Fixpoint explicitLoop (idx : gmap string Searcher)
    (names : list string) (accessKey : string)
    (authRepos : list string) (repos : list string) : list string :=
  match names with
  | [] => repos
  | name :: names' =>
      match idx !! name with
      | None => explicitLoop idx names' accessKey authRepos repos
      | Some s =>
          if CheckAccess (Repo_ s) accessKey authRepos
          then explicitLoop idx names' accessKey authRepos
                            (repos ++ [name])
          else explicitLoop idx names' accessKey authRepos repos
      end
  end.

Definition parseAsRepoList (v : string) (idx : gmap string Searcher)
    (accessKey : string) (authRepos : list string) : list string :=
  let v := TrimSpace v in
  if String.eqb v "*" then
    wildcardLoop idx (range idx) accessKey authRepos []
  else
    explicitLoop idx (SplitComma v) accessKey authRepos [].
End RepoList.

(** The files-opened counts [searchAll] adds up: those of the responses
    that carry matches. *)
Definition countedFiles (l : list searchResponse) : Z :=
  foldr (fun x acc =>
           match res x with
           | Some sr =>
               match Matches sr with
               | Some _ => FilesOpened sr + acc
               | None => acc
               end
           | None => acc
           end) 0 l.

(** The files-opened counts of all responses. *)
Definition openedFiles (l : list searchResponse) : Z :=
  foldr (fun x acc =>
           match res x with
           | Some sr => FilesOpened sr + acc
           | None => acc
           end) 0 l.

(** The map [collect] builds from the responses that carry matches. *)
Definition keepMatches (results : gmap string SearchResponse)
    (l : list searchResponse) : gmap string SearchResponse :=
  foldl (fun m x =>
           match res x with
           | Some sr =>
               match Matches sr with
               | Some _ => <[repo x := sr]> m
               | None => m
               end
           | None => m
           end) results l.

(** Whether a name is in the registry and its repository passes the
    access check. *)
Definition accessible (idx : gmap string Searcher) (accessKey : string)
    (authRepos : list string) (name : string) : bool :=
  match idx !! name with
  | Some s => CheckAccess (Repo_ s) accessKey authRepos
  | None => false
  end.

(** Modelled from the spec: [Searcher.Update] of package searcher,
    which is not among the sources. It reports whether a push update
    was triggered, and is false when push updates are disabled for the
    repository. *)
Definition Update (s : Searcher) : bool := PushUpdatesEnabled (Repo_ s).

End Search.
Arguments SearchResponse FileMatch : clear implicits.
Arguments Searcher FileMatch : clear implicits.
Arguments searchResponse FileMatch : clear implicits.
Arguments searchOutcome FileMatch : clear implicits.
Arguments Scheduler FileMatch : clear implicits.
Arguments accessible {FileMatch} idx accessKey authRepos name.
Arguments countedFiles {FileMatch} l.
Arguments openedFiles {FileMatch} l.
Arguments keepMatches {FileMatch} results l.

Definition parseAsUintValue (sv : string) (min max def : Z) : Z :=
  let '(iv, e) := ParseUint10 sv 54 in
  match e with
  | Some _ => def
  | None =>
      if negb (max =? 0) && (iv >? max) then max
      else if negb (min =? 0) && (iv <? min) then max
      else iv
  end.

(** The ctx parameter as the search handler parses it. *)
Definition parseLinesOfContext (ctx : string) : Z :=
  parseAsUintValue ctx 0 maxLinesOfContext defaultLinesOfContext.

(** *** The update handler *)

(** What the handler reads from a request: the method, the
    HOUND-ACCESS-KEY header (empty when absent), the URLs stored in the
    session under gitlab-repos, if any (handed to [CheckAccess] as the
    list of their members), and the form value repos. *)
Record Request := mkRequest {
  Method : string;
  HoundAccessKey : string;
  SessionGitlabRepos : option (list string);
  FormRepos : string
}.

Inductive Body : Type :=
| ErrorBody (msg : string)
| TextBody (text : string).

Record Response := mkResponse {
  Status : Z;
  Payload : Body
}.

Definition StatusOK : Z := 200.
Definition StatusForbidden : Z := 403.
Definition StatusNotFound : Z := 404.
Definition StatusMethodNotAllowed : Z := 405.

Definition writeError (msg : string) (status : Z) : Response :=
  mkResponse status (ErrorBody msg).

Definition writeResp (text : string) : Response :=
  mkResponse StatusOK (TextBody text).

Section Update.
Context {FileMatch : Type} `{MapRange}.

(** The loop of the update handler; [triggered] lists the repositories
    whose [Update] has returned true so far. *)
Fixpoint updateLoop (idx : gmap string (Searcher FileMatch))
    (repos : list string) (triggered : list string)
  : Response * list string :=
  match repos with
  | [] => (writeResp "ok", triggered)
  | repo :: repos' =>
      match idx !! repo with
      | None =>
          (writeError ("No such repository: " +:+ repo) StatusNotFound,
           triggered)
      | Some searcher =>
          if negb (Update searcher) then
            (writeError
               ("Push updates are not enabled for repository " +:+ repo)
               StatusForbidden,
             triggered)
          else updateLoop idx repos' (triggered ++ [repo])
      end
  end.

Definition updateHandler (idx : gmap string (Searcher FileMatch))
    (r : Request) : Response * list string :=
  if negb (String.eqb (Method r) "POST") then
    (writeError "Method Not Allowed" StatusMethodNotAllowed, [])
  else
    let accessKey := HoundAccessKey r in
    let authRepos :=
      match SessionGitlabRepos r with
      | Some s => s
      | None => []
      end in
    let repos := parseAsRepoList (FormRepos r) idx accessKey authRepos in
    updateLoop idx repos [].
End Update.

(** *** Form values *)

Definition parseAsBool `{UnicodeLower} (v : string) : bool :=
  let v := ToLower v in
  String.eqb v "true" || String.eqb v "1" || String.eqb v "fosho".

(** [parseRangeInt], as the value it leaves behind the pointer. *)
Definition parseRangeInt (v : string) : Z :=
  if String.eqb v EmptyString then 0
  else
    let '(vi, e) := ParseUint10 v 64 in
    match e with
    | Some _ => 0
    | None => wrap_int vi
    end.

Definition parseRangeValue (rv : string) : Z * Z :=
  match CutColon rv with
  | None => (0, 0)
  | Some (before, after) => (parseRangeInt before, parseRangeInt after)
  end.

(** *** The repos and search handlers *)

Record Stats := mkStats {
  Stats_FilesOpened : Z;
  Stats_Duration : Z
}.

(** The form values the search handler reads besides repos. *)
Record SearchForm := mkSearchForm {
  Form_stats : string;
  Form_q : string;
  Form_rng : string;
  Form_files : string;
  Form_excludeFiles : string;
  Form_i : string;
  Form_literal : string;
  Form_ctx : string
}.

Section Handlers.
Context {FileMatch : Type} `{MapRange} `{UnicodeLower}.

Definition sessionRepos (r : Request) : list string :=
  match SessionGitlabRepos r with
  | Some s => s
  | None => []
  end.

(** The loop of the repos handler over the registry. *)
Fixpoint reposLoop (entries : list (string * Searcher FileMatch))
    (accessKey : string) (authRepos : list string)
    (res : gmap string Repo) : gmap string Repo :=
  match entries with
  | [] => res
  | (name, srch) :: entries' =>
      if CheckAccess (Repo_ srch) accessKey authRepos
      then reposLoop entries' accessKey authRepos (<[name := Repo_ srch]> res)
      else reposLoop entries' accessKey authRepos res
  end.

(** The repos handler: the map it hands to [writeResp]. *)
Definition reposHandler (idx : gmap string (Searcher FileMatch))
    (r : Request) : gmap string Repo :=
  reposLoop (range idx) (HoundAccessKey r) (sessionRepos r) ∅.

Definition searchOptions (f : SearchForm) : SearchOptions :=
  let '(offset, limit) := parseRangeValue (Form_rng f) in
  mkSearchOptions (parseAsBool (Form_i f)) (parseAsBool (Form_literal f))
    (parseAsUintValue (Form_ctx f) 0 maxLinesOfContext defaultLinesOfContext)
    (Form_files f) (Form_excludeFiles f) offset limit.

(** What the search handler hands to [writeError] or [writeResp], always
    with status 200, or the panic of the search. How the JSON encoder and
    the connection fare in [writeJson] is not part of this model. *)
Inductive SearchReply : Type :=
| ReplyError (status : Z) (msg : string)
| ReplyResults (status : Z)
    (results : option (gmap string (SearchResponse FileMatch)))
    (stats : option Stats)
| ReplyPanicked.

Definition searchHandler `{Scheduler FileMatch}
    (idx : gmap string (Searcher FileMatch)) (r : Request) (f : SearchForm)
    (elapsed : Z) : SearchReply :=
  let accessKey := HoundAccessKey r in
  let authRepos := sessionRepos r in
  let stats := parseAsBool (Form_stats f) in
  let repos := parseAsRepoList (FormRepos r) idx accessKey authRepos in
  let query := Form_q f in
  let opt := searchOptions f in
  match searchAll query opt repos idx 0 0 elapsed with
  | SearchPanicked => ReplyPanicked
  | SearchReturned _ (Some e) _ _ => ReplyError StatusOK e
  | SearchReturned results None filesOpened durationMs =>
      ReplyResults StatusOK results
        (if stats then Some (mkStats filesOpened durationMs) else None)
  end.

End Handlers.

End Api.

(** ** Concrete collaborators, to run the code on examples *)
Module Concrete.
Import GoStrings Config Vcs Api.

(** [range] in the order of [map_to_list]. *)
#[export] Instance listOrder : MapRange := {|
  range := fun A m => map_to_list m;
  range_perm := fun A m => reflexivity (map_to_list m)
|}.

(** Results arrive in the order the goroutines were started. *)
Definition inOrder (FileMatch : Type) : Scheduler FileMatch := {|
  completion := fun l => l;
  completion_perm := fun l => reflexivity l
|}.

(** Results arrive in the opposite order. *)
Definition reversed (FileMatch : Type) : Scheduler FileMatch := {|
  completion := fun l => reverse l;
  completion_perm := fun l => reverse_Permutation l
|}.

(** A world that replays a script: each command run consumes the next
    scripted output and exit error; reading HEAD yields [head]. *)
Definition scripted (head : string) : Exec := {|
  World := list (string * option error);
  CombinedOutput := fun _ _ _ w =>
    match w with
    | [] => ((EmptyString, None), [])
    | r :: w' => (r, w')
    end;
  PipedOutput := fun _ _ _ w => (Exited head None, w)
|}.

Definition nl : string := String LF EmptyString.

(** What git remote show origin prints for a remote whose default branch
    is main, and what it prints outside a repository. *)
Definition remoteShowMain : string :=
  "* remote origin" +:+ nl +:+
  "  Fetch URL: https://h/svc" +:+ nl +:+
  "  Push  URL: https://h/svc" +:+ nl +:+
  "  HEAD branch: main" +:+ nl +:+
  "  Remote branch:" +:+ nl +:+
  "    main tracked" +:+ nl.

Definition notARepository : string :=
  "fatal: not a git repository (or any of the parent directories): .git"
  +:+ nl.

(** A small registry: foo is open to all, bar asks for the key k1, baz is
    OAuth-gated (with the marker set to false), push updates are enabled
    for foo only. Every search opens [n] files and finds [ms]. *)
Definition sampleRepo (keys : option (list string)) (oauth : option bool)
    (url : string) (push : option bool) : Repo :=
  mkRepo keys oauth url 30000 "git" None None false None push.

Definition fixedSearcher (r : Repo)
    (out : option (SearchResponse nat) * option error) : Searcher nat :=
  mkSearcher r (fun _ _ => out).

Definition found (ms : option (list nat)) (n : Z)
  : option (SearchResponse nat) * option error :=
  (Some (mkSearchResponse ms n), None).

Definition registry : gmap string (Searcher nat) :=
  <["foo" := fixedSearcher (sampleRepo None None "https://h/foo" (Some true))
               (found (Some [1%nat]) 3)]>
  (<["bar" := fixedSearcher (sampleRepo (Some ["k1"]) (Some true)
                               "https://h/bar" None)
                (found (Some [2%nat]) 5)]>
  (<["baz" := fixedSearcher (sampleRepo None (Some false) "https://h/baz"
                               None)
                (found None 7)]> ∅)).

Definition noOptions : SearchOptions :=
  mkSearchOptions false false 2 EmptyString EmptyString 0 0.

(** Three repositories of which B fails, and two repositories of which A
    opens three files without a match. *)
Definition abc : gmap string (Searcher nat) :=
  <["A" := fixedSearcher (sampleRepo None None "a" None)
             (found (Some [1%nat]) 3)]>
  (<["B" := fixedSearcher (sampleRepo None None "b" None)
              (None, Some "index closed")]>
  (<["C" := fixedSearcher (sampleRepo None None "c" None)
              (found (Some [2%nat]) 5)]> ∅)).

Definition ac : gmap string (Searcher nat) :=
  <["A" := fixedSearcher (sampleRepo None None "a" None) (found None 3)]>
  (<["C" := fixedSearcher (sampleRepo None None "c" None)
              (found (Some [2%nat]) 5)]> ∅).

(** A GitLab that serves two pages of projects: the first names the
    second as next, the second names only the first and the last page. A
    request for any other URL fails. *)
Definition page1URL : string :=
  "https://gitlab.example/api/v4/projects?simple=True&membership=True".
Definition page2URL : string :=
  "https://gitlab.example/api/v4/projects?page=2".

Definition page1 : Gitlab.PageResponse :=
  Gitlab.mkPageResponse 200
    [Gitlab.mkProject "https://gitlab.example/g/svc.git" "g / svc";
     Gitlab.mkProject "https://gitlab.example/g/lib.git" "g / lib"]
    (Gitlab.linkEntry page2URL "next" +:+ ", "
     +:+ Gitlab.linkEntry page1URL "first" +:+ ", "
     +:+ Gitlab.linkEntry page2URL "last").

Definition page2 : Gitlab.PageResponse :=
  Gitlab.mkPageResponse 200
    [Gitlab.mkProject "https://gitlab.example/h/svc.git" "g / svc";
     Gitlab.mkProject "https://gitlab.example/h/web.git" "h / web"]
    (Gitlab.linkEntry page1URL "first" +:+ ", "
     +:+ Gitlab.linkEntry page2URL "last").

Definition twoPages : Gitlab.HttpClient := {|
  Gitlab.Net := nat;
  Gitlab.Do := fun url auth requests =>
    if String.eqb url page1URL then (inr page1, S requests)
    else if String.eqb url page2URL then (inr page2, S requests)
    else (inl "no such host", S requests)
|}.

Definition sampleGitlab : Gitlab.Gitlab :=
  Gitlab.mkGitlab "token" "https://gitlab.example" true false 1000
    (Some (sampleRepo (Some ["k1"]) None EmptyString None)).

(** A stand-in for the Unicode tables behind [strings.ToLower]; the
    examples lower ASCII text only, which never reaches it. *)
Definition asciiOnly : UnicodeLower := {|
  MapToLower := fun s => s
|}.

(** A codec for the fragment of JSON the examples need: the text null,
    and objects, written without white space, whose members are unsigned
    integers. Keys are encoded in sorted order, as encoding/json does. *)
Definition quoted (k : string) : string :=
  String QUOTE k +:+ String QUOTE EmptyString.

Fixpoint readKey (s acc : string) : option (string * string) :=
  match s with
  | EmptyString => None
  | String c s' =>
      if Ascii.eqb c QUOTE then Some (revString acc EmptyString, s')
      else readKey s' (String c acc)
  end.

Fixpoint readNumber (s : string) (n : N) (seen : bool)
  : option (N * string) :=
  match s with
  | EmptyString => if seen then Some (n, EmptyString) else None
  | String c s' =>
      let code := N.of_nat (nat_of_ascii c) in
      if ((48 <=? code) && (code <=? 57))%N
      then readNumber s' (10 * n + (code - 48))%N true
      else if seen then Some (n, s) else None
  end.

Fixpoint readMembers (fuel : nat) (s : string) (m : gmap string N)
  : option (gmap string N) :=
  match fuel, s with
  | S fuel', String c s1 =>
      if Ascii.eqb c QUOTE then
        match readKey s1 EmptyString with
        | Some (k, String ":" s3) =>
            match readNumber s3 0%N false with
            | Some (n, String "," s5) => readMembers fuel' s5 (<[k := n]> m)
            | Some (n, String "}" EmptyString) => Some (<[k := n]> m)
            | _ => None
            end
        | _ => None
        end
      else None
  | _, _ => None
  end.

Definition flatUnmarshal (s : string) : error + option (gmap string N) :=
  if String.eqb s "null" then inr None
  else if String.eqb s "{}" then inr (Some ∅)
  else match s with
       | String "{" s1 =>
           match readMembers (String.length s) s1 ∅ with
           | Some m => inr (Some m)
           | None => inl "invalid character"
           end
       | _ => inl "invalid character"
       end.

Fixpoint insertByKey (e : string * N) (l : list (string * N))
  : list (string * N) :=
  match l with
  | [] => [e]
  | e' :: l' =>
      if String.leb (fst e) (fst e') then e :: l
      else e' :: insertByKey e l'
  end.

Definition showMember (e : string * N) : string :=
  quoted (fst e) +:+ ":" +:+ NilEmpty.string_of_uint (N.to_uint (snd e)).

Definition flatMarshal (m : option (gmap string N)) : error + string :=
  match m with
  | None => inr "null"
  | Some m' =>
      inr ("{"
           +:+ String.concat ","
                 (map showMember (foldr insertByKey [] (map_to_list m')))
           +:+ "}")
  end.

Definition flatJSON : JSONCodec := {|
  JVal := N;
  Unmarshal := flatUnmarshal;
  Marshal := flatMarshal
|}.

(** The spec's merge example: a git repository with the blob depth 1 and
    the global git defaults depth 5, timeout 30. *)
Definition depth1 : string := "{" +:+ quoted "depth" +:+ ":1}".
Definition depth5timeout30 : string :=
  "{" +:+ quoted "depth" +:+ ":5," +:+ quoted "timeout" +:+ ":30}".
Definition depth1timeout30 : string :=
  "{" +:+ quoted "depth" +:+ ":1," +:+ quoted "timeout" +:+ ":30}".

Definition gitRepo (blob : option string) : Repo :=
  mkRepo None None "https://h/svc" 30000 "git" blob None false None None.

Definition hgRepo (blob : option string) : Repo :=
  mkRepo None None "https://h/old" 30000 "hg" blob None false None None.

Definition sampleConfig : Config :=
  mkConfig "data" "Hound"
    (<["svc" := gitRepo (Some depth1)]>
     (<["lib" := gitRepo None]>
      (<["old" := hgRepo (Some depth1)]> ∅)))
    2 "/healthz"
    (<["git" := Some depth5timeout30]> ∅).

(** The float64 nearest to a natural number, ties to the even mantissa:
    what encoding/json keeps of a numeral it decodes into an interface
    value. *)
Definition roundFloat64 (n : N) : N :=
  let bits := N.size n in
  if (bits <=? 53)%N then n
  else
    let e := (bits - 53)%N in
    let q := N.shiftr n e in
    let r := (n - N.shiftl q e)%N in
    let half := N.shiftl 1 (e - 1) in
    let q' := if (half <? r)%N || ((r =? half)%N && N.odd q)
              then (q + 1)%N else q in
    N.shiftl q' e.

(** The codec with numbers decoded to float64, for flat objects of
    unsigned integer numerals whose float64 is at most 2^53 (which are
    printed back with all their digits); a larger number is outside this
    fragment and refused. *)
Definition float64Unmarshal (s : string) : error + option (gmap string N) :=
  match flatUnmarshal s with
  | inl e => inl e
  | inr None => inr None
  | inr (Some m) =>
      let m' := roundFloat64 <$> m in
      if forallb (fun kv => (snd kv <=? 2 ^ 53)%N) (map_to_list m')
      then inr (Some m')
      else inl "number outside the fragment"
  end.

Definition float64JSON : JSONCodec := {|
  JVal := N;
  Unmarshal := float64Unmarshal;
  Marshal := flatMarshal
|}.

(** A git repository whose depth is 2^53 + 1, with the global default
    timeout 30. *)
Definition depthBig : string :=
  "{" +:+ quoted "depth" +:+ ":9007199254740993}".
Definition timeout30 : string := "{" +:+ quoted "timeout" +:+ ":30}".
Definition depthRoundedTimeout30 : string :=
  "{" +:+ quoted "depth" +:+ ":9007199254740992," +:+ quoted "timeout"
  +:+ ":30}".

Definition bigConfig : Config :=
  mkConfig "data" "Hound"
    (<["svc" := gitRepo (Some depthBig)]> ∅)
    2 "/healthz"
    (<["git" := Some timeout30]> ∅).

(** A configuration whose global git defaults do not decode. *)
Definition brokenConfig : Config :=
  mkConfig "data" "Hound"
    (<["svc" := gitRepo (Some depth1)]> ∅)
    2 "/healthz"
    (<["git" := Some "{depth:5"]> ∅).

(** A repository map with one configured entry that GitLab also reports. *)
Definition configured : gmap string Repo :=
  <["g / lib" := sampleRepo None None "ssh://manual/lib" (Some true)]> ∅.

(** A search request: stats on, query x, the first 50 matches, case
    ignored, 100 lines of context asked for. *)
Definition searchX : SearchForm :=
  mkSearchForm "TRUE" "x" "0:50" EmptyString EmptyString "1" EmptyString
               "100".

End Concrete.

(* ===================================================================== *)
(** * Part II. Properties                                                 *)
(* ===================================================================== *)

Import GoStrings GoInt Config Vcs Api.

Section AccessControl.

Lemma iterateCompare_In (l : list string) (v : string) :
  iterateCompare l v = true <-> In v l.
Proof.
  induction l as [|c l IH]; simpl.
  - split; [discriminate | tauto].
  - destruct (String.eqb c v) eqn:E.
    + apply String.eqb_eq in E. tauto.
    + apply String.eqb_neq in E. rewrite IH. split; [tauto|].
      intros [H|H]; [congruence | exact H].
Qed.

(** C1. [CheckAccess] decides in this order: with an access-key list
    (non-nil), access holds exactly when the key is a member of the list,
    whatever the OAuth marker and the authorized URLs are; otherwise with
    the OAuth marker present (true or false), access holds exactly when
    the repository's URL is among the authorized URLs; otherwise access
    always holds. *)
Theorem CheckAccess_policy (r : Repo) (accessKey : string)
    (authorizedURLs : list string) :
  match AccessKeys r with
  | Some keys =>
      (CheckAccess r accessKey authorizedURLs = true <-> In accessKey keys)
      /\ (forall o urls,
            CheckAccess (withOAuth o r) accessKey urls
            = CheckAccess r accessKey authorizedURLs)
  | None =>
      match OAuthAuthorization r with
      | Some _ =>
          CheckAccess r accessKey authorizedURLs = true
          <-> In (Url r) authorizedURLs
      | None => CheckAccess r accessKey authorizedURLs = true
      end
  end.
Proof.
  unfold CheckAccess. destruct r as [ak oa url ms vcs vm up ex ep eu]; simpl.
  destruct ak as [keys|].
  - split.
    + rewrite <- iterateCompare_In.
      destruct (iterateCompare keys accessKey); tauto.
    + reflexivity.
  - destruct oa as [b|]; [|reflexivity].
    rewrite <- iterateCompare_In.
    destruct (iterateCompare authorizedURLs url); tauto.
Qed.

(** Key comparison is by exact bytes: a key differing only in case is
    refused. *)
Example CheckAccess_case_sensitive :
  let r := mkRepo (Some ["k1"; "k2"]) None "u" 0 "git" None None false
                  None None in
  CheckAccess r "k1" [] = true /\ CheckAccess r "K1" [] = false
  /\ CheckAccess r "bogus" ["u"] = false.
Proof. repeat split. Qed.

(** The OAuth marker gates by its presence: set to false it still asks
    for the repository's URL among the authorized ones; an empty (non-nil)
    key list refuses every key. *)
Example CheckAccess_gates :
  let gated := mkRepo None (Some false) "https://h/r" 0 "git" None None
                      false None None in
  let open := mkRepo None None "https://h/r" 0 "git" None None false None
                     None in
  let closed := mkRepo (Some []) None "https://h/r" 0 "git" None None false
                       None None in
  CheckAccess gated "any" ["https://h/r"] = true
  /\ CheckAccess gated "any" [] = false
  /\ CheckAccess gated "any" ["https://h/R"] = false
  /\ CheckAccess open "any" [] = true
  /\ CheckAccess closed EmptyString ["https://h/r"] = false.
Proof. repeat split. Qed.

(** C10. With the enable-push-updates field absent [PushUpdatesEnabled]
    is false, with the enable-poll-updates field absent
    [PollUpdatesEnabled] is true; a field that is set is returned as it
    is. *)
Theorem update_flags_defaults (r : Repo) :
  PushUpdatesEnabled r
    = match EnablePushUpdates r with None => false | Some b => b end
  /\ PollUpdatesEnabled r
    = match EnablePollUpdates r with None => true | Some b => b end.
Proof. split; reflexivity. Qed.

End AccessControl.

Section ContextLines.

Lemma parseDigits_ok_bounds (s : string) (maxVal n v : Z) :
  0 <= n <= maxVal ->
  parseDigits s maxVal n = (v, None) -> 0 <= v <= maxVal.
Proof.
  revert n. induction s as [|c s IH]; intros n Hn; simpl.
  - intros [= <-]. exact Hn.
  - set (code := Z.of_nat (nat_of_ascii c)).
    destruct ((48 <=? code) && (code <=? 57)) eqn:Hd; [|discriminate].
    destruct (n >=? maxUint64 / 10 + 1); [discriminate|].
    set (n10 := wrap_uint64 (n * 10)).
    set (n1 := wrap_uint64 (n10 + (code - 48))).
    destruct ((n1 <? n10) || (n1 >? maxVal)) eqn:Hr; [discriminate|].
    apply IH. apply orb_false_iff in Hr as [_ Hr].
    assert (0 <= n1) by (apply Z.mod_pos_bound; reflexivity).
    lia.
Qed.

Lemma ParseUint10_ok_bounds (s : string) (v : Z) :
  ParseUint10 s 54 = (v, None) -> 0 <= v <= 2 ^ 54 - 1.
Proof.
  unfold ParseUint10. destruct s; [discriminate|].
  apply parseDigits_ok_bounds. lia.
Qed.

(** C9. The context-lines parameter parses to the default 2 whenever
    [ParseUint] reports an error and to the parsed value capped at 20
    otherwise, so it always lies in [0, 20]; the inputs 100, abc and 0
    give 20, 2 and 0. *)
Theorem parseLinesOfContext_clamps (sv : string) :
  parseLinesOfContext sv
    = match ParseUint10 sv 54 with
      | (_, Some _) => 2
      | (iv, None) => Z.min iv 20
      end
  /\ 0 <= parseLinesOfContext sv <= 20
  /\ parseLinesOfContext "100" = 20
  /\ parseLinesOfContext "abc" = 2
  /\ parseLinesOfContext "0" = 0.
Proof.
  assert (E : parseLinesOfContext sv
    = match ParseUint10 sv 54 with
      | (_, Some _) => 2
      | (iv, None) => Z.min iv 20
      end).
  { unfold parseLinesOfContext, parseAsUintValue, maxLinesOfContext,
      defaultLinesOfContext.
    destruct (ParseUint10 sv 54) as [iv [e|]]; [reflexivity|].
    simpl. destruct (iv >? 20) eqn:G; lia. }
  split; [exact E|]. split; [|repeat split].
  rewrite E. destruct (ParseUint10 sv 54) as [iv [e|]] eqn:P; [lia|].
  apply ParseUint10_ok_bounds in P. lia.
Qed.

(** Further inputs: a sign, the empty string and a value of 2^54 or more
    are parse failures; leading zeros are accepted. *)
Example parseLinesOfContext_samples :
  parseLinesOfContext "-1" = 2
  /\ parseLinesOfContext EmptyString = 2
  /\ parseLinesOfContext "18014398509481984" = 2
  /\ parseLinesOfContext "18014398509481983" = 20
  /\ parseLinesOfContext "007" = 7
  /\ parseLinesOfContext "20" = 20
  /\ parseLinesOfContext "21" = 20.
Proof. repeat split. Qed.

End ContextLines.

Section GitSync.
Context `{Exec}.

Lemma run_swallows (desc dir cmd : string) (args : list string) (st : State) :
  run desc dir cmd args st
  = let '((out, e), w) := CombinedOutput dir cmd args (world st) in
    ((out, None),
     mkState w
       (logged st ++ match e with
                     | Some _ => [failedLine desc dir out]
                     | None => []
                     end)).
Proof.
  unfold run, mbind, combinedOutput, logPrintf, ret.
  destruct (CombinedOutput dir cmd args (world st)) as [[out [e|]] w]; simpl.
  - reflexivity.
  - rewrite app_nil_r. reflexivity.
Qed.

(** C3. [Pull] resolves the target ref, runs the fetch and the hard reset,
    and returns exactly what [HeadRev] returns afterwards: whatever exit
    errors the two commands report, each one only adds its failure line to
    the log, and [run] itself never returns an error. *)
Theorem Pull_returns_HeadRev (g : GitDriver) (dir : string) (st : State) :
  (forall desc d cmd args s, snd (fst (run desc d cmd args s)) = None)
  /\ let '(ref, s0) := targetRef g dir st in
     let '((out1, e1), w1) :=
       CombinedOutput dir "git" (fetchArgs ref) (world s0) in
     let '((out2, e2), w2) :=
       CombinedOutput dir "git" (resetArgs ref) w1 in
     Pull g dir st
     = HeadRev g dir
         (mkState w2
            (logged s0
             ++ match e1 with
                | Some _ => [failedLine "git fetch" dir out1]
                | None => []
                end
             ++ match e2 with
                | Some _ => [failedLine "git reset" dir out2]
                | None => []
                end)).
Proof.
  split.
  - intros desc d cmd args s. rewrite run_swallows.
    destruct (CombinedOutput d cmd args (world s)) as [[out e] w].
    reflexivity.
  - unfold Pull, mbind at 1.
    destruct (targetRef g dir st) as [ref s0].
    unfold mbind at 1. rewrite run_swallows.
    destruct (CombinedOutput dir "git" (fetchArgs ref) (world s0))
      as [[out1 e1] w1].
    cbn [snd fst]. unfold mbind at 1. rewrite run_swallows. cbn [world].
    destruct (CombinedOutput dir "git" (resetArgs ref) w1)
      as [[out2 e2] w2].
    cbn [snd fst logged]. rewrite <- app_assoc. reflexivity.
Qed.

Lemma targetRef_explicit (g : GitDriver) (dir : string) (st : State) :
  Ref g <> EmptyString -> targetRef g dir st = (Ref g, st).
Proof.
  intros Hne. unfold targetRef, mbind, ret.
  apply String.eqb_neq in Hne. rewrite Hne. simpl. rewrite Hne. reflexivity.
Qed.

Lemma targetRef_detection_disabled (g : GitDriver) (dir : string)
    (st : State) :
  Ref g = EmptyString -> DetectRef g = false ->
  targetRef g dir st = (defaultRef, st).
Proof.
  intros Hr Hd. unfold targetRef, mbind, ret. rewrite Hr, Hd. reflexivity.
Qed.

Lemma detectRef_parses_output (dir : string) (st : State) :
  fst (detectRef dir st)
  = match FindStringSubmatch
            (fst (fst (CombinedOutput dir "git" ["remote"; "show"; "origin"]
                         (world st)))) with
    | [_; branch] => branch
    | _ => EmptyString
    end.
Proof.
  unfold detectRef, mbind at 1. rewrite run_swallows.
  destruct (CombinedOutput dir "git" ["remote"; "show"; "origin"] (world st))
    as [[out e] w]. cbn [fst].
  destruct (FindStringSubmatch out) as [|a [|b [|c l]]]; reflexivity.
Qed.

Lemma FindStringSubmatch_shape (s : string) :
  FindStringSubmatch s = []
  \/ exists branch, branch <> EmptyString
       /\ FindStringSubmatch s = [headBranchPrefix +:+ branch; branch].
Proof.
  induction s as [|c s IH]; [left; reflexivity|].
  cbn [FindStringSubmatch].
  destruct (stripPrefix headBranchPrefix (String c s)) as [rest|]; [|exact IH].
  destruct (restOfLine rest) as [|a b] eqn:E; [exact IH|].
  right. exists (String a b). split; [discriminate | reflexivity].
Qed.

(** With no explicit ref and detection enabled, the resolved ref is the
    branch found in the output of the remote query, or the fallback when
    none is found. *)
Lemma targetRef_detected (dir : string) (st : State) :
  fst (targetRef (newGit true EmptyString EmptyString EmptyString) dir st)
  = match FindStringSubmatch
            (fst (fst (CombinedOutput dir "git" ["remote"; "show"; "origin"]
                         (world st)))) with
    | [_; branch] => branch
    | _ => defaultRef
    end.
Proof.
  unfold targetRef, newGit. cbn [Ref DetectRef refDetetector].
  cbn [String.eqb negb]. unfold mbind.
  pose proof (detectRef_parses_output dir st) as D.
  destruct (detectRef dir st) as [r s1]. cbn [fst] in D. subst r.
  destruct (FindStringSubmatch_shape
              (fst (fst (CombinedOutput dir "git"
                           ["remote"; "show"; "origin"] (world st)))))
    as [-> | (b & Hb & ->)]; [reflexivity|].
  apply String.eqb_neq in Hb. rewrite Hb. reflexivity.
Qed.

(** C6 (where the code departs from it). When the remote query exits with
    an error, the error is dropped by [run] and its output is parsed all
    the same: a failed command whose output carries a HEAD branch line
    resolves to that branch, whatever it is, and not to the fallback
    master. *)
Theorem targetRef_failed_command_not_fallback (dir : string) (st : State)
    (out : string) (e : error) (w : World) (whole branch : string) :
  CombinedOutput dir "git" ["remote"; "show"; "origin"] (world st)
    = ((out, Some e), w) ->
  FindStringSubmatch out = [whole; branch] ->
  fst (targetRef (newGit true EmptyString EmptyString EmptyString) dir st)
    = branch.
Proof.
  intros Hc Hm. rewrite targetRef_detected, Hc. cbn [fst].
  rewrite Hm. reflexivity.
Qed.

End GitSync.

Section GitSyncSamples.
Import Concrete.

Lemma targetRef_failed_command_not_fallback_witness :
  fst (@targetRef (scripted "abc")
         (@newGit (scripted "abc") true EmptyString EmptyString EmptyString)
         "/data/svc"
         (@mkState (scripted "abc")
            [(remoteShowMain, Some "exit status 128")] []))
    = "main"
  /\ "main" <> defaultRef.
Proof.
  split; [|discriminate].
  apply (@targetRef_failed_command_not_fallback (scripted "abc")
           "/data/svc" _ remoteShowMain "exit status 128" []
           "HEAD branch: main" "main").
  - reflexivity.
  - vm_compute. reflexivity.
Defined.

(** The spec's three resolutions on a remote that reports main, and the
    fallback when the output has no HEAD branch line. *)
Example targetRef_samples :
  let E := scripted "abc" in
  let st := @mkState E [(remoteShowMain, None)] [] in
  fst (@targetRef E (@newGit E true "develop" EmptyString EmptyString)
         "/d" st) = "develop"
  /\ fst (@targetRef E (@newGit E true EmptyString EmptyString EmptyString)
            "/d" st) = "main"
  /\ fst (@targetRef E (@newGit E false EmptyString EmptyString EmptyString)
            "/d" st) = "master"
  /\ fst (@targetRef E (@newGit E true EmptyString EmptyString EmptyString)
            "/d" (@mkState E [(notARepository, Some "exit status 128")] []))
     = "master".
Proof. vm_compute. repeat split; reflexivity. Qed.

(** A pull whose fetch and reset both fail still answers with the head
    revision and no error, and leaves two lines in the log. *)
Example Pull_both_steps_fail :
  let E := scripted ("4f2a9c1" +:+ nl) in
  let g := @newGit E false "main" EmptyString EmptyString in
  let st := @mkState E [("fatal: unable to access", Some "exit status 128");
                        ("fatal: ambiguous argument", Some "exit status 128")]
                     [] in
  fst (@Pull E g "/d" st) = ("4f2a9c1", None)
  /\ length (@logged E (snd (@Pull E g "/d" st))) = 2%nat.
Proof. vm_compute. repeat split; reflexivity. Qed.

(** [TrimSpace] removes ASCII and Unicode white space at both ends and
    nothing inside. *)
Example TrimSpace_samples :
  TrimSpace " * " = "*"
  /\ TrimSpace ("foo, bar" +:+ nl) = "foo, bar"
  /\ TrimSpace (bytes [194; 160; 102; 111; 111; 226; 128; 137]%nat) = "foo"
  /\ TrimSpace (bytes [160; 102]%nat) = bytes [160; 102]%nat
  /\ TrimSpace "   " = EmptyString
  /\ SplitComma "a,,b," = ["a"; EmptyString; "b"; EmptyString]
  /\ SplitComma EmptyString = [EmptyString].
Proof. vm_compute. repeat split; reflexivity. Qed.

End GitSyncSamples.

Section MapIteration.
Context `{MapRange} {A : Type}.

Lemma range_lookup (m : gmap string A) (k : string) (v : A) :
  (k, v) ∈ range m <-> m !! k = Some v.
Proof. rewrite range_perm. apply elem_of_map_to_list. Qed.

Lemma range_NoDup (m : gmap string A) : NoDup (range m).*1.
Proof. rewrite range_perm. apply NoDup_fst_map_to_list. Qed.

Lemma range_to_map (m : gmap string A) : list_to_map (range m) = m.
Proof.
  rewrite <- (list_to_map_to_list m) at 2.
  apply list_to_map_proper; [apply range_NoDup | apply range_perm].
Qed.

End MapIteration.

Section Resolver.
Context {FileMatch : Type} `{MapRange}.
Implicit Types idx : gmap string (Searcher FileMatch).

Lemma accessible_spec idx (k : string) (urls : list string) (name : string) :
  accessible idx k urls name = true
  <-> exists s, idx !! name = Some s
                /\ CheckAccess (Repo_ s) k urls = true.
Proof.
  unfold accessible. destruct (idx !! name) as [s|].
  - split; [eauto | intros (s' & [= <-] & Hs); exact Hs].
  - split; [discriminate | intros (s' & [=] & _)].
Qed.

Lemma explicitLoop_filter idx (names : list string) (k : string)
    (urls acc : list string) :
  explicitLoop idx names k urls acc
  = (acc ++ List.filter (accessible idx k urls) names)%list.
Proof.
  revert acc. induction names as [|n names IH]; intros acc; simpl.
  - by rewrite app_nil_r.
  - unfold accessible at 1.
    destruct (idx !! n) as [s|]; [|apply IH].
    destruct (CheckAccess (Repo_ s) k urls); [|apply IH].
    rewrite IH, <- app_assoc. reflexivity.
Qed.

Lemma wildcardLoop_filter idx (names : list (string * Searcher FileMatch))
    (k : string) (urls acc : list string) :
  wildcardLoop idx names k urls acc
  = (acc ++ List.filter (accessible idx k urls) names.*1)%list.
Proof.
  revert acc. induction names as [|[n s0] names IH]; intros acc; simpl.
  - by rewrite app_nil_r.
  - unfold accessible at 1.
    destruct (idx !! n) as [s|]; [|apply IH].
    destruct (CheckAccess (Repo_ s) k urls); [|apply IH].
    rewrite IH, <- app_assoc. reflexivity.
Qed.

Lemma filter_NoDup (f : string -> bool) (l : list string) :
  NoDup l -> NoDup (List.filter f l).
Proof.
  induction 1 as [|x l Hx Hl IH]; simpl; [constructor|].
  destruct (f x); [|exact IH].
  constructor; [|exact IH].
  rewrite list_elem_of_In, filter_In, <- list_elem_of_In. tauto.
Qed.

(** In terms of the trimmed text and its pieces: for the wildcard,
    [parseAsRepoList] returns each registry name whose repository passes
    [CheckAccess], once, and nothing else; otherwise it returns the pieces
    that are in the registry and pass [CheckAccess], in order. *)
Lemma parseAsRepoList_trimmed (v : string) idx (accessKey : string)
    (authRepos : list string) :
  let out := parseAsRepoList v idx accessKey authRepos in
  if String.eqb (TrimSpace v) "*" then
    NoDup out
    /\ forall name,
         name ∈ out
         <-> exists s, idx !! name = Some s
                       /\ CheckAccess (Repo_ s) accessKey authRepos = true
  else
    out = List.filter (accessible idx accessKey authRepos)
                      (SplitComma (TrimSpace v))
    /\ forall name,
         name ∈ out
         <-> name ∈ SplitComma (TrimSpace v)
             /\ exists s, idx !! name = Some s
                          /\ CheckAccess (Repo_ s) accessKey authRepos = true.
Proof.
  unfold parseAsRepoList. cbv zeta.
  destruct (String.eqb (TrimSpace v) "*").
  - rewrite wildcardLoop_filter. simpl. split.
    + apply filter_NoDup, range_NoDup.
    + intros name.
      rewrite list_elem_of_In, filter_In, <- list_elem_of_In, accessible_spec.
      split; [tauto|]. intros (s & Hs & Ha). split; [|eauto].
      apply list_elem_of_fmap. exists (name, s). split; [reflexivity|].
      by apply range_lookup.
  - rewrite explicitLoop_filter. simpl. split; [reflexivity|].
    intros name.
    rewrite list_elem_of_In, filter_In, <- list_elem_of_In, accessible_spec.
    tauto.
Qed.

Lemma parseAsRepoList_known (v : string) idx (k : string)
    (urls : list string) (name : string) :
  name ∈ parseAsRepoList v idx k urls -> is_Some (idx !! name).
Proof.
  unfold parseAsRepoList. cbv zeta.
  destruct (String.eqb (TrimSpace v) "*");
    [rewrite wildcardLoop_filter | rewrite explicitLoop_filter]; simpl;
    rewrite list_elem_of_In, filter_In, accessible_spec;
    intros (_ & s & -> & _); eauto.
Qed.

Lemma updateLoop_known idx (repos triggered : list string) :
  Forall (fun name => is_Some (idx !! name)) repos ->
  Status (fst (updateLoop idx repos triggered)) <> StatusNotFound.
Proof.
  intros Hall. revert triggered.
  induction Hall as [|n repos [s Hs] _ IH]; intros triggered; simpl.
  - discriminate.
  - rewrite Hs. destruct (Update s); simpl; [apply IH | discriminate].
Qed.

(** X1. The not-found branch of the update handler is never taken: the
    names it loops over have been filtered by [parseAsRepoList]. *)
Lemma updateHandler_never_not_found idx (r : Request) :
  Status (fst (updateHandler idx r)) <> StatusNotFound.
Proof.
  unfold updateHandler.
  destruct (negb (String.eqb (Method r) "POST")); [discriminate|].
  apply updateLoop_known, Forall_forall. intros name Hin.
  eapply parseAsRepoList_known. exact Hin.
Qed.

(** C4 (where the code departs from it). A POST to the update endpoint
    that names only a repository missing from the registry is answered
    with status 200 and the body ok, and triggers nothing: the unknown name
    is dropped before the handler's not-found check. *)
Theorem updateHandler_unknown_repo_ok idx (accessKey : string)
    (session : option (list string)) :
  idx !! "nonexistent" = None ->
  updateHandler idx (mkRequest "POST" accessKey session "nonexistent")
  = (mkResponse 200 (TextBody "ok"), []).
Proof.
  intros Hnone. unfold updateHandler. cbn [Method negb FormRepos].
  replace (String.eqb "POST" "POST") with true by reflexivity. cbn [negb].
  unfold parseAsRepoList.
  replace (TrimSpace "nonexistent") with "nonexistent"
    by (vm_compute; reflexivity).
  replace (String.eqb "nonexistent" "*") with false by reflexivity.
  replace (SplitComma "nonexistent") with ["nonexistent"]
    by (vm_compute; reflexivity).
  cbn [explicitLoop]. rewrite Hnone. reflexivity.
Qed.

End Resolver.

Section ResolverSamples.
Local Existing Instance Concrete.listOrder.

Lemma updateHandler_unknown_repo_ok_witness :
  updateHandler Concrete.registry
    (mkRequest "POST" "k1" None "nonexistent")
  = (mkResponse 200 (TextBody "ok"), []).
Proof.
  apply (updateHandler_unknown_repo_ok Concrete.registry "k1" None).
  reflexivity.
Defined.

(** The resolver on the sample registry: unknown and refused names vanish
    from the answer, white space around the wildcard is ignored, and the
    sibling statuses of the update handler are reachable. *)
Example parseAsRepoList_samples :
  parseAsRepoList "foo,bar,nonexistent" Concrete.registry "k1" []
    = ["foo"; "bar"]
  /\ parseAsRepoList "foo,bar,nonexistent" Concrete.registry "K1" []
    = ["foo"]
  /\ parseAsRepoList "foo, bar" Concrete.registry "k1" [] = ["foo"]
  /\ parseAsRepoList "baz,foo,foo" Concrete.registry "k1" ["https://h/baz"]
    = ["baz"; "foo"; "foo"]
  /\ parseAsRepoList " * " Concrete.registry "k1" [] ≡ₚ ["foo"; "bar"]
  /\ parseAsRepoList EmptyString Concrete.registry "k1" [] = [].
Proof. vm_compute. repeat split; reflexivity. Qed.

Example updateHandler_samples :
  updateHandler Concrete.registry (mkRequest "POST" "k1" None "foo")
    = (mkResponse 200 (TextBody "ok"), ["foo"])
  /\ updateHandler Concrete.registry (mkRequest "POST" "k1" None "foo,bar")
    = (mkResponse 403
         (ErrorBody "Push updates are not enabled for repository bar"),
       ["foo"])
  /\ updateHandler Concrete.registry (mkRequest "POST" "no" None "bar")
    = (mkResponse 200 (TextBody "ok"), [])
  /\ updateHandler Concrete.registry (mkRequest "GET" "k1" None "foo")
    = (mkResponse 405 (ErrorBody "Method Not Allowed"), []).
Proof. vm_compute. repeat split; reflexivity. Qed.

End ResolverSamples.

Section FanOut.
Context {FileMatch : Type} `{Scheduler FileMatch}.
Implicit Types (idx : gmap string (Searcher FileMatch))
               (l sent : list (searchResponse FileMatch))
               (results : gmap string (SearchResponse FileMatch)).

(** The goroutines all start exactly when every name is in the registry;
    each hands over what its repository's [Search] returns. *)
Lemma spawn_spec (query : string) (opts : SearchOptions)
    (repos : list string) idx sent :
  spawn query opts repos idx = Some sent ->
  Forall2 (fun name x =>
             repo x = name
             /\ exists s, idx !! name = Some s
                          /\ Search s query opts = (res x, err x))
          repos sent.
Proof.
  revert sent. induction repos as [|r repos IH]; intros sent; simpl.
  - intros [= <-]. constructor.
  - destruct (idx !! r) as [s|] eqn:Hs; [|discriminate].
    destruct (spawn query opts repos idx) as [rest|]; [|discriminate].
    destruct (Search s query opts) as [fms e] eqn:Hr. intros [= <-].
    constructor; [|by apply IH]. split; [reflexivity|].
    exists s. rewrite Hr. split; [exact Hs | reflexivity].
Qed.

Lemma spawn_consistent (query : string) (opts : SearchOptions)
    (repos : list string) idx sent x y :
  spawn query opts repos idx = Some sent ->
  x ∈ sent -> y ∈ sent -> repo x = repo y -> res x = res y.
Proof.
  intros Hs Hx Hy Hxy. apply spawn_spec in Hs.
  assert (K : forall z, z ∈ sent ->
            exists s, idx !! repo z = Some s
                      /\ Search s query opts = (res z, err z)).
  { intros z Hz. apply list_elem_of_lookup in Hz as [i Hi].
    destruct (Forall2_lookup_r _ _ _ _ _ Hs Hi) as (n & _ & <- & s & ? & ?).
    eauto. }
  destruct (K x Hx) as (s1 & L1 & S1), (K y Hy) as (s2 & L2 & S2).
  rewrite Hxy, L2 in L1. injection L1 as <-. congruence.
Qed.

Lemma collect_first_error (pre post : list (searchResponse FileMatch))
    (r : searchResponse FileMatch) (e : error) results
    (filesOpened duration elapsed : Z) :
  Forall (fun x => err x = None /\ is_Some (res x)) pre ->
  err r = Some e ->
  exists filesOpened',
    collect (pre ++ r :: post) results filesOpened duration elapsed
    = SearchReturned None (Some e) filesOpened' duration.
Proof.
  intros Hpre He. revert results filesOpened.
  induction Hpre as [|x pre [Hx [sr Hsr]] _ IH]; intros results filesOpened.
  - simpl. rewrite He. eauto.
  - simpl. rewrite Hx, Hsr. destruct (Matches sr); apply IH.
Qed.

Lemma first_error_split l :
  Exists (fun x => is_Some (err x)) l ->
  exists pre r post e,
    l = (pre ++ r :: post)%list
    /\ Forall (fun x => err x = None) pre /\ err r = Some e.
Proof.
  induction l as [|x l IH]; intros Hex; [by apply Exists_nil in Hex|].
  destruct (err x) as [e|] eqn:Hx.
  - exists [], x, l, e. repeat split; [constructor | exact Hx].
  - apply Exists_cons in Hex as [[e He]|Hex]; [congruence|].
    destruct (IH Hex) as (pre & r & post & e & -> & Hpre & Hr).
    exists (x :: pre), r, post, e. repeat split; [|exact Hr].
    constructor; assumption.
Qed.

(** C2. When the goroutines deliver at least one error, [searchAll]
    returns the error of the first erroring result in the order of
    arrival, together with a nil result map: nothing collected before it
    is handed to the caller. *)
Theorem searchAll_first_error (query : string) (opts : SearchOptions)
    (repos : list string) idx (filesOpened duration elapsed : Z) sent :
  spawn query opts repos idx = Some sent ->
  Forall (fun x => err x = None -> is_Some (res x)) sent ->
  Exists (fun x => is_Some (err x)) sent ->
  exists pre r post e filesOpened',
    completion sent = (pre ++ r :: post)%list
    /\ Forall (fun x => err x = None) pre
    /\ err r = Some e
    /\ searchAll query opts repos idx filesOpened duration elapsed
       = SearchReturned None (Some e) filesOpened' duration.
Proof.
  intros Hs Hwf Hex. unfold searchAll. rewrite Hs.
  rewrite <- (completion_perm sent) in Hwf, Hex.
  destruct (first_error_split _ Hex) as (pre & r & post & e & Hc & Hpre & Hr).
  rewrite Hc in *.
  assert (Hpre' : Forall (fun x => err x = None /\ is_Some (res x)) pre).
  { apply Forall_app in Hwf as [Hwf _].
    rewrite Forall_forall in Hwf, Hpre. apply Forall_forall.
    intros x Hx. split; [by apply Hpre | apply Hwf; [exact Hx | by apply Hpre]]. }
  destruct (collect_first_error pre post r e ∅ filesOpened duration elapsed
              Hpre' Hr) as [fo' Hfo].
  exists pre, r, post, e, fo'. repeat split; assumption.
Qed.

Lemma wrap_int_range (z : Z) : - 2 ^ 63 <= wrap_int z < 2 ^ 63.
Proof.
  unfold wrap_int.
  pose proof (Z.mod_pos_bound (z + 2 ^ 63) (2 ^ 64) eq_refl). lia.
Qed.

Lemma wrap_int_id (z : Z) : - 2 ^ 63 <= z < 2 ^ 63 -> wrap_int z = z.
Proof. intros Hz. unfold wrap_int. rewrite Z.mod_small; lia. Qed.

Lemma wrap_int_add (a b : Z) : wrap_int (wrap_int a + b) = wrap_int (a + b).
Proof.
  unfold wrap_int. f_equal.
  replace ((a + 2 ^ 63) mod 2 ^ 64 - 2 ^ 63 + b + 2 ^ 63)
    with ((a + 2 ^ 63) mod 2 ^ 64 + b) by lia.
  rewrite Zplus_mod_idemp_l. f_equal. lia.
Qed.

Lemma collect_all_ok l results (filesOpened duration elapsed : Z) :
  Forall (fun x => err x = None /\ is_Some (res x)) l ->
  - 2 ^ 63 <= filesOpened < 2 ^ 63 ->
  collect l results filesOpened duration elapsed
  = SearchReturned (Some (keepMatches results l)) None
      (wrap_int (filesOpened + countedFiles l)) elapsed.
Proof.
  intros Hl. revert results filesOpened.
  induction Hl as [|x l [Hx [sr Hsr]] _ IH]; intros results fo Hfo.
  - simpl. rewrite Z.add_0_r, wrap_int_id by exact Hfo. reflexivity.
  - simpl. rewrite Hx, Hsr. destruct (Matches sr) as [ms|].
    + rewrite IH by apply wrap_int_range.
      rewrite wrap_int_add. do 2 f_equal. lia.
    + by rewrite IH.
Qed.

Lemma countedFiles_perm l l' : l ≡ₚ l' -> countedFiles l = countedFiles l'.
Proof.
  induction 1 as [|x l l' _ IH|x y l|l l' l'' _ IH1 _ IH2]; simpl.
  - reflexivity.
  - rewrite IH. reflexivity.
  - destruct (res x) as [sx|], (res y) as [sy|]; try reflexivity.
    destruct (Matches sx), (Matches sy); lia.
  - congruence.
Qed.

Lemma keepMatches_lookup l (name : string) (sr : SearchResponse FileMatch) :
  (forall x y, x ∈ l -> y ∈ l -> repo x = repo y -> res x = res y) ->
  keepMatches ∅ l !! name = Some sr
  <-> exists x, x ∈ l /\ repo x = name /\ res x = Some sr
                /\ is_Some (Matches sr).
Proof.
  induction l as [|x l IH] using rev_ind; intros Hcons.
  - simpl. rewrite lookup_empty. split; [discriminate|].
    intros (x & Hx & _). by apply elem_of_nil in Hx.
  - assert (Hcons' : forall a b, a ∈ l -> b ∈ l -> repo a = repo b ->
                                 res a = res b).
    { intros a b Ha Hb. apply Hcons; apply elem_of_app; by left. }
    specialize (IH Hcons').
    assert (Hxin : x ∈ (l ++ [x])%list).
    { apply elem_of_app. right. apply list_elem_of_singleton. reflexivity. }
    assert (Hold : keepMatches ∅ l !! name = Some sr ->
              exists y, y ∈ (l ++ [x])%list /\ repo y = name
                        /\ res y = Some sr /\ is_Some (Matches sr)).
    { intros Hk. apply IH in Hk as (y & Hy & ?). exists y.
      split; [apply elem_of_app; by left | assumption]. }
    unfold keepMatches in *. rewrite foldl_app. simpl.
    destruct (res x) as [sx|] eqn:Hsx;
      [destruct (Matches sx) as [ms|] eqn:Hms|].
    + destruct (decide (repo x = name)) as [Hn|Hn].
      * rewrite Hn, lookup_insert_eq. split.
        -- intros [= <-]. exists x. rewrite Hms. eauto.
        -- intros (y & Hy & Hyn & Hyr & _).
           rewrite <- Hyr, <- Hsx. symmetry. apply Hcons; congruence.
      * rewrite lookup_insert_ne by exact Hn. split; [exact Hold|].
        intros (y & Hy & Hyn & Hyr & Hm). apply IH.
        apply elem_of_app in Hy as [Hy|Hy]; [eauto|].
        apply list_elem_of_singleton in Hy. congruence.
    + split; [exact Hold|].
      intros (y & Hy & Hyn & Hyr & Hm). apply IH.
      apply elem_of_app in Hy as [Hy|Hy]; [eauto|].
      apply list_elem_of_singleton in Hy. subst y.
      rewrite Hsx in Hyr. injection Hyr as <-. rewrite Hms in Hm.
      by destruct Hm.
    + split; [exact Hold|].
      intros (y & Hy & Hyn & Hyr & Hm). apply IH.
      apply elem_of_app in Hy as [Hy|Hy]; [eauto|].
      apply list_elem_of_singleton in Hy. congruence.
Qed.

(** C5 (amended). When every search succeeds and the total fits an int,
    [searchAll] adds to the files-opened counter the counts of exactly the
    responses that carry matches, and the result map holds exactly those
    responses under their repository names: a response whose [Matches] is
    nil is left out of the map and of the count. *)
Theorem searchAll_counts_matching (query : string) (opts : SearchOptions)
    (repos : list string) idx (filesOpened duration elapsed : Z) sent :
  spawn query opts repos idx = Some sent ->
  Forall (fun x => err x = None /\ is_Some (res x)) sent ->
  - 2 ^ 63 <= filesOpened < 2 ^ 63 ->
  - 2 ^ 63 <= filesOpened + countedFiles sent < 2 ^ 63 ->
  exists results,
    searchAll query opts repos idx filesOpened duration elapsed
    = SearchReturned (Some results) None
        (filesOpened + countedFiles sent) elapsed
    /\ forall name sr,
         results !! name = Some sr
         <-> exists x, x ∈ sent /\ repo x = name /\ res x = Some sr
                       /\ is_Some (Matches sr).
Proof.
  intros Hs Hok Hfo Hsum. unfold searchAll. rewrite Hs.
  exists (keepMatches ∅ (completion sent)). split.
  - rewrite collect_all_ok; [|by rewrite completion_perm | exact Hfo].
    rewrite (countedFiles_perm _ _ (completion_perm sent)).
    by rewrite wrap_int_id.
  - intros name sr. rewrite keepMatches_lookup.
    + split; intros (x & Hx & Hrest); exists x;
        (split; [|exact Hrest]); by rewrite completion_perm in *.
    + intros x y Hx Hy. rewrite completion_perm in Hx, Hy.
      by apply (spawn_consistent query opts repos idx sent).
Qed.

End FanOut.

Section FanOutSamples.
Import Concrete.

Lemma searchAll_first_error_witness :
  exists pre r post e filesOpened',
    @completion nat (inOrder nat)
      [mkSearchResp "A" (Some (mkSearchResponse (Some [1%nat]) 3)) None;
       mkSearchResp "B" None (Some "index closed");
       mkSearchResp "C" (Some (mkSearchResponse (Some [2%nat]) 5)) None]
    = (pre ++ r :: post)%list
    /\ Forall (fun x => err x = None) pre
    /\ err r = Some e
    /\ @searchAll nat (inOrder nat) "q" noOptions ["A"; "B"; "C"] abc 0 0 40
       = SearchReturned None (Some e) filesOpened' 0.
Proof.
  apply (@searchAll_first_error nat (inOrder nat) "q" noOptions
           ["A"; "B"; "C"] abc 0 0 40).
  - reflexivity.
  - repeat constructor; simpl; eauto; discriminate.
  - apply Exists_cons_tl, Exists_cons_hd. simpl. eauto.
Defined.

(** The spec's scenario: of A, B and C only B fails; whichever way the
    results arrive, the caller gets B's error and no result map. When two
    searches fail, the order of arrival decides whose error it is. *)
Example searchAll_error_samples :
  @searchAll nat (inOrder nat) "q" noOptions ["A"; "B"; "C"] abc 0 0 40
    = SearchReturned None (Some "index closed") 3 0
  /\ @searchAll nat (reversed nat) "q" noOptions ["A"; "B"; "C"] abc 0 0 40
    = SearchReturned None (Some "index closed") 5 0
  /\ (let two := <["A" := fixedSearcher (sampleRepo None None "a" None)
                            (None, Some "first")]>
                 (<["C" := fixedSearcher (sampleRepo None None "c" None)
                             (None, Some "second")]> ∅) in
      @searchAll nat (inOrder nat) "q" noOptions ["A"; "C"] two 0 0 40
        = SearchReturned None (Some "first") 0 0
      /\ @searchAll nat (reversed nat) "q" noOptions ["A"; "C"] two 0 0 40
        = SearchReturned None (Some "second") 0 0).
Proof. vm_compute. repeat split; reflexivity. Qed.

Lemma searchAll_counts_matching_witness :
  exists results,
    @searchAll nat (inOrder nat) "q" noOptions ["A"; "C"] abc 0 0 40
    = SearchReturned (Some results) None
        (0 + countedFiles
               [mkSearchResp "A" (Some (mkSearchResponse (Some [1%nat]) 3))
                             None;
                mkSearchResp "C" (Some (mkSearchResponse (Some [2%nat]) 5))
                             None]) 40
    /\ forall name sr,
         results !! name = Some sr
         <-> exists x,
               x ∈ [mkSearchResp "A"
                      (Some (mkSearchResponse (Some [1%nat]) 3)) None;
                    mkSearchResp "C"
                      (Some (mkSearchResponse (Some [2%nat]) 5)) None]
               /\ repo x = name /\ res x = Some sr /\ is_Some (Matches sr).
Proof.
  apply (@searchAll_counts_matching nat (inOrder nat) "q" noOptions
           ["A"; "C"] abc 0 0 40).
  - reflexivity.
  - repeat constructor; simpl; eauto.
  - lia.
  - simpl. lia.
Defined.

(** The spec's figures: A opens 3 files and C opens 5, both with matches,
    and the counter reads 8. *)
Example searchAll_three_and_five :
  exists results,
    @searchAll nat (reversed nat) "q" noOptions ["A"; "C"] abc 0 0 40
    = SearchReturned (Some results) None 8 40
    /\ dom results = {["A"; "C"]}.
Proof. eexists. split; [vm_compute; reflexivity|]. by vm_compute. Qed.

(** C5 as first stated does not hold: with every search succeeding, the
    counter need not be the sum of all the files-opened counts. Repository
    A opens 3 files and finds nothing, C opens 5 and finds a match: the
    counter reads 5, not 8. *)
Lemma searchAll_skips_unmatched_counts :
  ~ (forall (S : Scheduler nat) (query : string) (opts : SearchOptions)
            (repos : list string) (idx : gmap string (Searcher nat))
            (elapsed : Z) (sent : list (searchResponse nat)),
       spawn query opts repos idx = Some sent ->
       Forall (fun x => err x = None /\ is_Some (res x)) sent ->
       exists results,
         @searchAll nat S query opts repos idx 0 0 elapsed
         = SearchReturned (Some results) None (openedFiles sent) elapsed).
Proof.
  intros Hclaim.
  destruct (Hclaim (inOrder nat) "q" noOptions ["A"; "C"] ac 40
              [mkSearchResp "A" (Some (mkSearchResponse None 3)) None;
               mkSearchResp "C" (Some (mkSearchResponse (Some [2%nat]) 5))
                            None])
    as [results Hres].
  - reflexivity.
  - repeat constructor; simpl; eauto.
  - vm_compute in Hres. discriminate Hres.
Qed.

Example searchAll_skips_unmatched_sample :
  @searchAll nat (inOrder nat) "q" noOptions ["A"; "C"] ac 0 0 40
  = SearchReturned
      (Some {["C" := mkSearchResponse (Some [2%nat]) 5]}) None 5 40.
Proof. vm_compute. reflexivity. Qed.

End FanOutSamples.

Section ConfigMerge.
Context `{MapRange} `{JSONCodec}.
Implicit Types (repoVals merged globalVals : option (gmap string JVal))
               (globals : gmap string (option (gmap string JVal))).

(** The inner loop leaves every key of the repository's map as it is and
    takes the others from the global entries. *)
Lemma fillMissing_lookup (l : list (string * JVal)) repoVals merged :
  fillMissing l repoVals = Done merged ->
  forall k,
    go_lookup merged k
    = match go_lookup repoVals k with
      | Some v => Some v
      | None => (list_to_map l : gmap string JVal) !! k
      end.
Proof.
  revert repoVals. induction l as [|[n v] l IH]; intros repoVals; simpl.
  - intros [= <-] k. rewrite lookup_empty. by destruct (go_lookup repoVals k).
  - destruct (go_lookup repoVals n) as [v0|] eqn:Hn.
    + intros Hf k. rewrite (IH _ Hf k).
      destruct (go_lookup repoVals k) as [vk|] eqn:Hk; [reflexivity|].
      rewrite lookup_insert_ne; [reflexivity | congruence].
    + destruct repoVals as [m|]; [|discriminate].
      intros Hf k. rewrite (IH _ Hf k). simpl in *.
      destruct (decide (n = k)) as [->|Hne].
      * by rewrite !lookup_insert_eq, Hn.
      * by rewrite !lookup_insert_ne.
Qed.

Lemma go_range_to_map globalVals (k : string) :
  (list_to_map (go_range globalVals) : gmap string JVal) !! k
  = go_lookup globalVals k.
Proof.
  destruct globalVals as [m|]; simpl.
  - by rewrite range_to_map.
  - apply lookup_empty.
Qed.

Lemma decodeGlobals_other (l : list (string * option SecretMessage))
    (acc : gmap string (option (gmap string JVal))) globals (k : string) :
  decodeGlobals l acc = Done globals -> k ∉ l.*1 ->
  globals !! k = acc !! k.
Proof.
  revert acc. induction l as [|[vcs [b|]] l IH]; intros acc; simpl.
  - by intros [= <-].
  - destruct (Unmarshal b) as [e|vals]; [discriminate|].
    intros Hd Hk. apply not_elem_of_cons in Hk as [Hne Hk].
    rewrite (IH _ Hd Hk). by apply lookup_insert_ne.
  - discriminate.
Qed.

Lemma decodeGlobals_lookup (l : list (string * option SecretMessage))
    (acc : gmap string (option (gmap string JVal))) globals
    (vcs : string) (b : string) :
  decodeGlobals l acc = Done globals -> NoDup l.*1 ->
  (vcs, Some b) ∈ l ->
  exists vals, Unmarshal b = inr vals /\ globals !! vcs = Some vals.
Proof.
  revert acc. induction l as [|[vcs' [b'|]] l IH]; intros acc; simpl.
  - intros _ _ Hin. by apply elem_of_nil in Hin.
  - destruct (Unmarshal b') as [e|vals] eqn:Hu; [discriminate|].
    intros Hd Hnd Hin. apply NoDup_cons in Hnd as [Hfresh Hnd].
    apply elem_of_cons in Hin as [[= -> ->]|Hin].
    + exists vals. split; [exact Hu|].
      rewrite (decodeGlobals_other _ _ _ _ Hd Hfresh).
      apply lookup_insert_eq.
    + by apply (IH _ Hd Hnd).
  - discriminate.
Qed.

Lemma mergeLoop_other globals (l : list (string * Repo))
    (repos repos' : gmap string Repo) (r : result unit) (k : string) :
  mergeLoop globals l repos = (r, repos') -> k ∉ l.*1 ->
  repos' !! k = repos !! k.
Proof.
  revert repos. induction l as [|[n repo] l IH]; intros repos; simpl.
  - by intros [= _ <-].
  - intros Hm Hk. apply not_elem_of_cons in Hk as [Hne Hk].
    destruct (mergeRepo globals repo) as [repo'|e|].
    + rewrite (IH _ Hm Hk). by apply lookup_insert_ne.
    + by injection Hm as _ <-.
    + by injection Hm as _ <-.
Qed.

Lemma mergeLoop_lookup globals (l : list (string * Repo))
    (repos repos' : gmap string Repo) (u : unit) (name : string)
    (repo : Repo) :
  mergeLoop globals l repos = (Done u, repos') -> NoDup l.*1 ->
  (name, repo) ∈ l ->
  exists repo', mergeRepo globals repo = Done repo'
                /\ repos' !! name = Some repo'.
Proof.
  revert repos. induction l as [|[n r0] l IH]; intros repos; simpl.
  - intros _ _ Hin. by apply elem_of_nil in Hin.
  - intros Hm Hnd Hin. apply NoDup_cons in Hnd as [Hfresh Hnd].
    destruct (mergeRepo globals r0) as [r0'|e|] eqn:Hr0; [|done|done].
    apply elem_of_cons in Hin as [[= -> ->]|Hin].
    + exists r0'. split; [exact Hr0|].
      rewrite (mergeLoop_other _ _ _ _ _ _ Hm Hfresh).
      apply lookup_insert_eq.
    + by apply (IH _ Hm Hnd).
Qed.

(** C8 (amended). When [mergeVCSConfigs] succeeds, a repository whose VCS
    kind has a
    global default blob gets as its blob the encoding of a map in which
    every key of its own (decoded) blob keeps the repository's value and
    every other key has the value of the global blob, if any. *)
Theorem mergeVCSConfigs_fills_absent_keys (cfg cfg' : Config)
    (name : string) (repo : Repo) (globalBytes : string) :
  mergeVCSConfigs cfg = Returned cfg' None ->
  Repos cfg !! name = Some repo ->
  VCSConfigMessages cfg !! Vcs repo = Some (Some globalBytes) ->
  exists globalVals repoVals merged (out : string),
    Unmarshal globalBytes = inr globalVals
    /\ decodeRepoVals (VcsConfig repo) = Done repoVals
    /\ Marshal merged = inr out
    /\ Repos cfg' !! name = Some (withVcsConfigMessage (Some out) repo)
    /\ forall k,
         go_lookup merged k
         = match go_lookup repoVals k with
           | Some v => Some v
           | None => go_lookup globalVals k
           end.
Proof.
  intros Hm Hrepo Hglobal. unfold mergeVCSConfigs in Hm.
  destruct (size (VCSConfigMessages cfg) =? 0)%nat eqn:Hsz.
  { apply Nat.eqb_eq, map_size_empty_iff in Hsz.
    rewrite Hsz, lookup_empty in Hglobal. discriminate. }
  destruct (decodeGlobals (range (VCSConfigMessages cfg)) ∅)
    as [globals|e|] eqn:Hd; [|discriminate|discriminate].
  destruct (mergeLoop globals (range (Repos cfg)) (Repos cfg))
    as [[u|e|] repos] eqn:Hl; [|discriminate|discriminate].
  injection Hm as <-.
  destruct (decodeGlobals_lookup _ _ _ (Vcs repo) globalBytes Hd
              (range_NoDup _)) as (globalVals & Hu & Hg).
  { by apply range_lookup. }
  destruct (mergeLoop_lookup _ _ _ _ u name repo Hl (range_NoDup _))
    as (repo' & Hr & Hlook).
  { by apply range_lookup. }
  unfold mergeRepo in Hr. rewrite Hg in Hr.
  destruct (decodeRepoVals (VcsConfig repo)) as [repoVals|e|] eqn:Hrv;
    [|discriminate|discriminate].
  simpl in Hr.
  destruct (fillMissing (go_range globalVals) repoVals) as [merged|e|] eqn:Hf;
    [|discriminate|discriminate].
  simpl in Hr.
  destruct (Marshal merged) as [e|out] eqn:Hout; [discriminate|].
  injection Hr as <-.
  exists globalVals, repoVals, merged, out.
  repeat split; try assumption.
  intros k. rewrite (fillMissing_lookup _ _ _ Hf k), go_range_to_map.
  reflexivity.
Qed.

(** X2. A repository whose VCS kind has no global default blob is left as
    it is. *)
Lemma mergeVCSConfigs_no_default (cfg cfg' : Config) (name : string)
    (repo : Repo) :
  mergeVCSConfigs cfg = Returned cfg' None ->
  Repos cfg !! name = Some repo ->
  VCSConfigMessages cfg !! Vcs repo = None ->
  Repos cfg' !! name = Some repo.
Proof.
  intros Hm Hrepo Hglobal. unfold mergeVCSConfigs in Hm.
  destruct (size (VCSConfigMessages cfg) =? 0)%nat; [congruence|].
  destruct (decodeGlobals (range (VCSConfigMessages cfg)) ∅)
    as [globals|e|] eqn:Hd; [|discriminate|discriminate].
  destruct (mergeLoop globals (range (Repos cfg)) (Repos cfg))
    as [[u|e|] repos] eqn:Hl; [|discriminate|discriminate].
  injection Hm as <-.
  destruct (mergeLoop_lookup _ _ _ _ u name repo Hl (range_NoDup _))
    as (repo' & Hr & Hlook).
  { by apply range_lookup. }
  unfold mergeRepo in Hr.
  assert (Hg : globals !! Vcs repo = None).
  { rewrite (decodeGlobals_other _ _ _ (Vcs repo) Hd); [apply lookup_empty|].
    intros Hin. apply list_elem_of_fmap in Hin as ([k v] & Hk & Hin).
    apply range_lookup in Hin. simpl in Hk. congruence. }
  rewrite Hg in Hr. injection Hr as <-. exact Hlook.
Qed.

End ConfigMerge.

Section ConfigMergeSamples.
Import Concrete.

Lemma mergeVCSConfigs_fills_absent_keys_witness :
  exists globalVals repoVals merged (out : string),
    @Unmarshal flatJSON depth5timeout30 = inr globalVals
    /\ @decodeRepoVals flatJSON (VcsConfig (gitRepo (Some depth1)))
       = Done repoVals
    /\ @Marshal flatJSON merged = inr out
    /\ Repos (withRepos
                (<["svc" := gitRepo (Some depth1timeout30)]>
                 (<["lib" := gitRepo (Some depth5timeout30)]>
                  (<["old" := hgRepo (Some depth1)]> ∅)))
                sampleConfig) !! "svc"
       = Some (withVcsConfigMessage (Some out) (gitRepo (Some depth1)))
    /\ forall k,
         go_lookup merged k
         = match go_lookup repoVals k with
           | Some v => Some v
           | None => go_lookup globalVals k
           end.
Proof.
  apply (@mergeVCSConfigs_fills_absent_keys listOrder flatJSON sampleConfig).
  - vm_compute. reflexivity.
  - vm_compute. reflexivity.
  - vm_compute. reflexivity.
Defined.

(** The spec's example, run on the bytes: the repository's depth 1 stays,
    the missing timeout 30 is filled in; a repository without a blob gets
    all the defaults; a repository of another VCS kind is untouched. *)
Example mergeVCSConfigs_depth_timeout :
  exists cfg',
    @mergeVCSConfigs listOrder flatJSON sampleConfig = Returned cfg' None
    /\ VcsConfig <$> (Repos cfg' !! "svc") = Some (Some depth1timeout30)
    /\ VcsConfig <$> (Repos cfg' !! "lib") = Some (Some depth5timeout30)
    /\ VcsConfig <$> (Repos cfg' !! "old") = Some (Some depth1).
Proof. eexists. split; [vm_compute; reflexivity|]. by vm_compute. Qed.

End ConfigMergeSamples.

(* ===================================================================== *)
(** * Part III. Further properties of the code                            *)
(* ===================================================================== *)

Section Numerals.

Lemma digitsValue_ge (s : string) (n v : Z) :
  0 <= n -> digitsValue s n = Some v -> n <= v.
Proof.
  revert n. induction s as [|c s IH]; intros n Hn; simpl.
  - intros [= <-]. lia.
  - set (code := Z.of_nat (nat_of_ascii c)).
    destruct ((48 <=? code) && (code <=? 57)) eqn:Hd; [|discriminate].
    intros Hv. apply IH in Hv; lia.
Qed.

(** The loop of [ParseUint] with its overflow checks computes the plain
    decimal value, reports a range error when that value is too large, and
    some error when a byte is not a digit. *)
Lemma parseDigits_spec (s : string) (maxVal n : Z) :
  0 <= n <= maxVal -> maxVal <= maxUint64 ->
  match digitsValue s n with
  | Some v =>
      parseDigits s maxVal n
      = if v <=? maxVal then (v, None) else (maxVal, Some ErrRange)
  | None => snd (parseDigits s maxVal n) <> None
  end.
Proof.
  intros Hn Hmax. revert n Hn.
  induction s as [|c s IH]; intros n Hn; simpl.
  - destruct (Z.leb_spec n maxVal); [reflexivity | lia].
  - set (code := Z.of_nat (nat_of_ascii c)).
    destruct ((48 <=? code) && (code <=? 57)) eqn:Hd; [|discriminate].
    apply andb_true_iff in Hd as [Hlo Hhi].
    apply Z.leb_le in Hlo, Hhi.
    unfold maxUint64 in *.
    change (2 ^ 64 - 1) with 18446744073709551615 in *.
    change (18446744073709551615 / 10 + 1) with 1844674407370955162.
    assert (Hrange :
      maxVal < 10 * n + (code - 48) ->
      match digitsValue s (10 * n + (code - 48)) with
      | Some v =>
          (maxVal, Some ErrRange)
          = if v <=? maxVal then (v, None) else (maxVal, Some ErrRange)
      | None => snd (maxVal, Some ErrRange) <> None
      end).
    { intros Hbig.
      destruct (digitsValue s (10 * n + (code - 48))) as [v|] eqn:Hv;
        [|discriminate].
      apply digitsValue_ge in Hv; [|lia].
      destruct (Z.leb_spec v maxVal); [lia | reflexivity]. }
    destruct (Z.geb_spec n 1844674407370955162) as [Hcut|Hcut].
    { apply Hrange. lia. }
    unfold wrap_uint64. change (2 ^ 64) with 18446744073709551616.
    rewrite (Z.mod_small (n * 10)) by lia.
    destruct (Z_lt_le_dec (n * 10 + (code - 48)) 18446744073709551616)
      as [Hfit|Hover].
    + rewrite (Z.mod_small (n * 10 + (code - 48))) by lia.
      destruct (Z.ltb_spec (n * 10 + (code - 48)) (n * 10)); [lia|].
      destruct (Z.gtb_spec (n * 10 + (code - 48)) maxVal) as [Hbig|Hok];
        simpl.
      * apply Hrange. lia.
      * replace (n * 10 + (code - 48)) with (10 * n + (code - 48)) by lia.
        apply IH. lia.
    + assert (Hm : (n * 10 + (code - 48)) mod 18446744073709551616
                   = n * 10 + (code - 48) - 18446744073709551616).
      { symmetry. apply Z.mod_unique_pos with (q := 1); lia. }
      rewrite Hm.
      destruct (Z.ltb_spec (n * 10 + (code - 48) - 18446744073709551616)
                           (n * 10)); [|lia].
      simpl. apply Hrange. lia.
Qed.

Lemma ParseUint10_spec (s : string) (bitSize : Z) :
  0 < bitSize <= 64 ->
  match decimal s with
  | Some v =>
      ParseUint10 s bitSize
      = if v <? 2 ^ bitSize then (v, None)
        else (2 ^ bitSize - 1, Some ErrRange)
  | None => snd (ParseUint10 s bitSize) <> None
  end.
Proof.
  intros Hb.
  assert (Hpow : 2 <= 2 ^ bitSize <= 2 ^ 64).
  { split.
    - change 2 with (2 ^ 1) at 1. apply Z.pow_le_mono_r; lia.
    - apply Z.pow_le_mono_r; lia. }
  unfold decimal, ParseUint10. destruct s as [|c s]; [discriminate|].
  pose proof (parseDigits_spec (String c s) (2 ^ bitSize - 1) 0
                ltac:(lia) ltac:(unfold maxUint64; lia)) as P.
  destruct (digitsValue (String c s) 0) as [v|]; [|exact P].
  rewrite P.
  destruct (Z.leb_spec v (2 ^ bitSize - 1)), (Z.ltb_spec v (2 ^ bitSize));
    try lia; reflexivity.
Qed.

(** X3. The context-lines parameter, by the decimal value of its text: a
    numeral below 2^54 gives its value capped at 20, anything else (no
    numeral, or a larger one) gives the default 2. *)
Theorem parseLinesOfContext_decimal (sv : string) :
  parseLinesOfContext sv
  = match decimal sv with
    | Some v => if v <? 2 ^ 54 then Z.min v 20 else 2
    | None => 2
    end.
Proof.
  unfold parseLinesOfContext, parseAsUintValue, maxLinesOfContext,
    defaultLinesOfContext.
  pose proof (ParseUint10_spec sv 54 ltac:(lia)) as P.
  destruct (decimal sv) as [v|].
  - rewrite P. destruct (Z.ltb_spec v (2 ^ 54)); [|reflexivity].
    simpl. destruct (Z.gtb_spec v 20); lia.
  - destruct (ParseUint10 sv 54) as [iv [e|]]; [reflexivity|].
    simpl in P. congruence.
Qed.

(** X4. [parseRangeInt], by the decimal value of its text: a numeral below
    2^63 gives its value; a numeral from 2^63 up to 2^64 - 1 passes
    [ParseUint] and turns negative in the conversion to int; anything else
    gives 0. *)
Theorem parseRangeInt_decimal (v : string) :
  parseRangeInt v
  = match decimal v with
    | Some n =>
        if n <? 2 ^ 63 then n
        else if n <? 2 ^ 64 then n - 2 ^ 64
        else 0
    | None => 0
    end.
Proof.
  unfold parseRangeInt.
  destruct (String.eqb_spec v EmptyString) as [->|Hne]; [reflexivity|].
  pose proof (ParseUint10_spec v 64 ltac:(lia)) as P.
  destruct (decimal v) as [n|] eqn:Hd.
  - rewrite P.
    assert (0 <= n).
    { unfold decimal in Hd. destruct v; [discriminate|].
      apply digitsValue_ge in Hd; lia. }
    destruct (Z.ltb_spec n (2 ^ 64)).
    + unfold wrap_int. destruct (Z.ltb_spec n (2 ^ 63)).
      * rewrite Z.mod_small; lia.
      * replace ((n + 2 ^ 63) mod 2 ^ 64) with (n + 2 ^ 63 - 2 ^ 64);
          [lia|].
        apply Z.mod_unique_pos with (q := 1); lia.
    + destruct (Z.ltb_spec n (2 ^ 63)); [lia | reflexivity].
  - destruct (ParseUint10 v 64) as [iv [e|]]; [reflexivity|].
    simpl in P. congruence.
Qed.

Lemma append_nil_r (s : string) : s +:+ EmptyString = s.
Proof.
  induction s as [|c s IH]; [reflexivity|].
  change (String c (s +:+ EmptyString) = String c s). by f_equal.
Qed.

Lemma append_assoc (a b c : string) : (a +:+ b) +:+ c = a +:+ (b +:+ c).
Proof.
  induction a as [|x a IH]; [reflexivity|].
  change (String x ((a +:+ b) +:+ c) = String x (a +:+ (b +:+ c))).
  by f_equal.
Qed.

Lemma revString_app (s acc : string) :
  revString s acc = revString s EmptyString +:+ acc.
Proof.
  revert acc. induction s as [|c s IH]; intros acc; simpl; [reflexivity|].
  rewrite (IH (String c acc)), (IH (String c EmptyString)).
  rewrite append_assoc. reflexivity.
Qed.

Lemma cutColon_app (a b before : string) :
  ~ In ":"%char (list_ascii_of_string a) ->
  cutColon (a +:+ String ":" b) before
  = Some (revString before EmptyString +:+ a, b).
Proof.
  revert before. induction a as [|c a IH]; intros before Hno; simpl.
  - rewrite append_nil_r. reflexivity.
  - destruct (Ascii.eqb_spec c ":"%char) as [->|Hc].
    + exfalso. apply Hno. simpl. by left.
    + rewrite IH by (intros Hin; apply Hno; simpl; by right).
      simpl. rewrite (revString_app before (String c EmptyString)).
      rewrite append_assoc. reflexivity.
Qed.

Lemma cutColon_none (s before : string) :
  ~ In ":"%char (list_ascii_of_string s) -> cutColon s before = None.
Proof.
  revert before. induction s as [|c s IH]; intros before Hno; simpl.
  - reflexivity.
  - destruct (Ascii.eqb_spec c ":"%char) as [->|Hc].
    + exfalso. apply Hno. simpl. by left.
    + apply IH. intros Hin. apply Hno. simpl. by right.
Qed.

(** X5. A range value is cut at its first colon and each side is parsed on
    its own; without a colon both numbers are 0, whatever the text. *)
Theorem parseRangeValue_cut (a b : string) :
  ~ In ":"%char (list_ascii_of_string a) ->
  parseRangeValue (a +:+ String ":" b) = (parseRangeInt a, parseRangeInt b)
  /\ parseRangeValue a = (0, 0).
Proof.
  intros Hno. unfold parseRangeValue, CutColon.
  rewrite cutColon_app, cutColon_none by exact Hno. split; reflexivity.
Qed.

Lemma digitsValue_no_colon (s : string) (n v : Z) :
  digitsValue s n = Some v -> ~ In ":"%char (list_ascii_of_string s).
Proof.
  revert n. induction s as [|c s IH]; intros n; simpl; [tauto|].
  destruct ((48 <=? Z.of_nat (nat_of_ascii c))
            && (Z.of_nat (nat_of_ascii c) <=? 57)) eqn:Hd; [|discriminate].
  intros Hv [Hc|Hin]; [|exact (IH _ Hv Hin)].
  subst c. discriminate Hd.
Qed.

Lemma digitsValue_string_of_uint (d : Decimal.uint) (n : Z) :
  digitsValue (NilEmpty.string_of_uint d) n = Some (uintValue d n).
Proof.
  revert n.
  induction d as [|d IH|d IH|d IH|d IH|d IH|d IH|d IH|d IH|d IH|d IH];
    intros n; cbn; [reflexivity|..];
    rewrite IH; do 2 f_equal;
    match goal with
    | |- context [Z.of_nat (nat_of_ascii ?c)] =>
        let v := eval vm_compute in (Z.of_nat (nat_of_ascii c)) in
        change (Z.of_nat (nat_of_ascii c)) with v
    end; lia.
Qed.

Lemma uintValue_pos (d : Decimal.uint) (acc : positive) :
  uintValue d (Zpos acc) = Zpos (Pos.of_uint_acc d acc).
Proof.
  revert acc.
  induction d as [|d IH|d IH|d IH|d IH|d IH|d IH|d IH|d IH|d IH|d IH];
    intros acc; cbn [uintValue Pos.of_uint_acc]; [reflexivity|..];
    rewrite <- IH; f_equal; lia.
Qed.

Lemma uintValue_of_uint (d : Decimal.uint) :
  uintValue d 0 = Z.of_N (Pos.of_uint d).
Proof.
  induction d as [|d IH|d IH|d IH|d IH|d IH|d IH|d IH|d IH|d IH|d IH];
    cbn [uintValue Pos.of_uint]; [reflexivity | exact IH | ..];
    apply uintValue_pos.
Qed.

(** What [fmt] prints for a number that is not negative is a numeral with
    that value. *)
Lemma decimal_showInt (z : Z) : 0 <= z -> decimal (showInt z) = Some z.
Proof.
  destruct z as [|p|p]; intros Hz; [reflexivity | | lia].
  unfold showInt, decimal.
  pose proof (digitsValue_string_of_uint (Pos.to_uint p) 0) as D.
  rewrite uintValue_of_uint, Unsigned.of_to in D.
  destruct (NilEmpty.string_of_uint (Pos.to_uint p)) eqn:E; [|exact D].
  exfalso. apply (Unsigned.to_uint_nonnil p).
  destruct (Pos.to_uint p); first [reflexivity | discriminate E].
Qed.

Lemma decimal_no_colon (s : string) (v : Z) :
  decimal s = Some v -> ~ In ":"%char (list_ascii_of_string s).
Proof.
  unfold decimal. destruct s; [discriminate|]. apply digitsValue_no_colon.
Qed.

(** X6. Round trip of the range parameter: an offset and a limit that fit
    an int and are not negative, printed in decimal with a colon between
    them, are read back as they are. *)
Theorem parseRangeValue_round_trip (offset limit : Z) :
  0 <= offset < 2 ^ 63 -> 0 <= limit < 2 ^ 63 ->
  parseRangeValue (showInt offset +:+ String ":" (showInt limit))
  = (offset, limit).
Proof.
  intros Ho Hl.
  pose proof (decimal_showInt offset ltac:(lia)) as Do.
  pose proof (decimal_showInt limit ltac:(lia)) as Dl.
  unfold parseRangeValue, CutColon.
  rewrite cutColon_app by (eapply decimal_no_colon; exact Do).
  change (revString EmptyString EmptyString +:+ showInt offset)
    with (showInt offset).
  rewrite !parseRangeInt_decimal, Do, Dl.
  destruct (Z.ltb_spec offset (2 ^ 63)), (Z.ltb_spec limit (2 ^ 63));
    try lia; reflexivity.
Qed.

Lemma parseRangeValue_round_trip_witness :
  parseRangeValue (showInt 5 +:+ String ":" (showInt 10)) = (5, 10).
Proof. apply (parseRangeValue_round_trip 5 10); lia. Defined.

Lemma parseRangeValue_cut_witness :
  parseRangeValue ("garbage" +:+ String ":" "7:8") =
    (parseRangeInt "garbage", parseRangeInt "7:8")
  /\ parseRangeValue "garbage" = (0, 0).
Proof.
  apply (parseRangeValue_cut "garbage" "7:8").
  simpl. intros H. repeat (destruct H as [H|H]; [discriminate H|]). exact H.
Defined.

(** The spec's range samples, a second colon, and an offset of 2^63 that
    comes out negative. *)
Example parseRangeValue_samples :
  parseRangeValue "5:10" = (5, 10)
  /\ parseRangeValue "garbage" = (0, 0)
  /\ parseRangeValue "5:" = (5, 0)
  /\ parseRangeValue ":7" = (0, 7)
  /\ parseRangeValue "1:2:3" = (1, 0)
  /\ parseRangeValue "-1:+2" = (0, 0)
  /\ parseRangeValue "9223372036854775808:18446744073709551616"
     = (-9223372036854775808, 0).
Proof. vm_compute. repeat split; reflexivity. Qed.

(** X7. For any bounds with [0 <= min <= def <= max] and [max] not 0,
    [parseAsUintValue] answers within [min, max], whatever the text. *)
Theorem parseAsUintValue_in_bounds (sv : string) (min max def : Z) :
  max <> 0 -> 0 <= min -> min <= def <= max ->
  min <= parseAsUintValue sv min max def <= max.
Proof.
  intros Hmax Hmin Hdef. unfold parseAsUintValue.
  destruct (ParseUint10 sv 54) as [iv [e|]] eqn:P; [lia|].
  apply ParseUint10_ok_bounds in P.
  destruct (Z.eqb_spec max 0); [contradiction|]. simpl.
  destruct (Z.gtb_spec iv max); [lia|].
  destruct (Z.eqb_spec min 0); simpl; [lia|].
  destruct (Z.ltb_spec iv min); lia.
Qed.

Lemma parseAsUintValue_in_bounds_witness :
  5 <= parseAsUintValue "3" 5 50 10 <= 50.
Proof. apply (parseAsUintValue_in_bounds "3" 5 50 10); lia. Defined.

(** X8. A numeral below a non-zero [min] is answered with [max], not with
    [min]: the lower guard of [parseAsUintValue] returns the upper
    bound. *)
Theorem parseAsUintValue_below_min (sv : string) (min max def v : Z) :
  decimal sv = Some v -> v < min -> min <= max -> max < 2 ^ 54 ->
  parseAsUintValue sv min max def = max.
Proof.
  intros Hd Hlt Hle Hmax. unfold parseAsUintValue.
  pose proof (ParseUint10_spec sv 54 ltac:(lia)) as P. rewrite Hd in P.
  assert (0 <= v).
  { unfold decimal in Hd. destruct sv; [discriminate|].
    apply digitsValue_ge in Hd; lia. }
  rewrite P. destruct (Z.ltb_spec v (2 ^ 54)); [|lia].
  destruct (Z.eqb_spec max 0); simpl.
  - destruct (Z.eqb_spec min 0); simpl; [lia|].
    destruct (Z.ltb_spec v min); lia.
  - destruct (Z.gtb_spec v max); [lia|].
    destruct (Z.eqb_spec min 0); simpl; [lia|].
    destruct (Z.ltb_spec v min); lia.
Qed.

Lemma parseAsUintValue_below_min_witness :
  parseAsUintValue "3" 5 50 10 = 50.
Proof.
  apply (parseAsUintValue_below_min "3" 5 50 10 3); [reflexivity|lia..].
Defined.

End Numerals.

Section FanOutMore.
Context {FileMatch : Type}.
Implicit Types (idx : gmap string (Searcher FileMatch))
               (l sent : list (searchResponse FileMatch))
               (results : gmap string (SearchResponse FileMatch)).

(** However the receiving loop ends, it either went through every result
    without meeting an error, or stopped at the error it returns. *)
Lemma collect_returned l results
    (out : option (gmap string (SearchResponse FileMatch)))
    (e : option error) (filesOpened duration elapsed fo' d' : Z) :
  collect l results filesOpened duration elapsed
    = SearchReturned out e fo' d' ->
  match e with
  | Some msg => out = None /\ exists x, x ∈ l /\ err x = Some msg
  | None =>
      out = Some (keepMatches results l)
      /\ Forall (fun x => err x = None /\ is_Some (res x)) l
  end.
Proof.
  revert results filesOpened.
  induction l as [|x l IH]; intros results fo; simpl.
  - intros [= <- <- _ _]. split; [reflexivity | constructor].
  - destruct (err x) as [msg|] eqn:Hx.
    + intros [= <- <- _ _]. split; [reflexivity|].
      exists x. split; [left | exact Hx].
    + destruct (res x) as [sr|] eqn:Hr; [|discriminate].
      assert (Hok : err x = None /\ is_Some (res x)) by (rewrite Hr; eauto).
      destruct (Matches sr) as [ms|]; intros Hc; apply IH in Hc;
        (destruct e as [msg|];
         [ destruct Hc as [-> (y & Hy & He)]; split; [reflexivity|];
           exists y; split; [by right | exact He]
         | destruct Hc as [-> Hall]; split; [reflexivity | by constructor] ]).
Qed.

Lemma sent_origin (query : string) (opts : SearchOptions)
    (repos : list string) idx sent (x : searchResponse FileMatch) :
  spawn query opts repos idx = Some sent -> x ∈ sent ->
  repo x ∈ repos
  /\ exists s, idx !! repo x = Some s
               /\ Search s query opts = (res x, err x).
Proof.
  intros Hs Hx. apply spawn_spec in Hs.
  apply list_elem_of_lookup in Hx as [i Hi].
  destruct (Forall2_lookup_r _ _ _ _ _ Hs Hi) as (n & Hn & <- & s & ? & ?).
  split; [|eauto]. apply list_elem_of_lookup. eauto.
Qed.

(** X9. [searchAll] never returns both a result map and an error, nor
    neither: an error it returns is the error of one of the repositories
    it was asked to search, and comes with a nil map; without an error the
    map is there and every search has succeeded. *)
Theorem searchAll_result_or_error `{Scheduler FileMatch} (query : string)
    (opts : SearchOptions) (repos : list string) idx
    (filesOpened duration elapsed fo' d' : Z)
    (out : option (gmap string (SearchResponse FileMatch)))
    (e : option error) :
  searchAll query opts repos idx filesOpened duration elapsed
    = SearchReturned out e fo' d' ->
  match e with
  | Some msg =>
      out = None
      /\ exists name s, name ∈ repos /\ idx !! name = Some s
                        /\ snd (Search s query opts) = Some msg
  | None =>
      is_Some out
      /\ forall name, name ∈ repos ->
           exists s sr, idx !! name = Some s
                        /\ Search s query opts = (Some sr, None)
  end.
Proof.
  unfold searchAll.
  destruct (spawn query opts repos idx) as [sent|] eqn:Hs; [|discriminate].
  intros Hc. apply collect_returned in Hc. destruct e as [msg|].
  - destruct Hc as [-> (x & Hx & He)]. split; [reflexivity|].
    rewrite completion_perm in Hx.
    destruct (sent_origin _ _ _ _ _ _ Hs Hx) as (Hin & s & Hl & Hsr).
    exists (repo x), s. rewrite Hsr. auto.
  - destruct Hc as [-> Hall]. split; [eauto|]. intros name Hin.
    rewrite completion_perm in Hall.
    pose proof (spawn_spec _ _ _ _ _ Hs) as F.
    apply list_elem_of_lookup in Hin as [i Hi].
    destruct (Forall2_lookup_l _ _ _ _ _ F Hi) as (x & Hx & _ & s & Hl & Hsr).
    rewrite Forall_forall in Hall.
    destruct (Hall x) as [He [sr Hr]].
    { apply list_elem_of_lookup. eauto. }
    exists s, sr. rewrite Hsr, He, Hr. auto.
Qed.

(** X10. When every search succeeds, what [searchAll] returns does not
    depend on the order in which the goroutines finish. *)
Theorem searchAll_order_independent (S1 S2 : Scheduler FileMatch)
    (query : string) (opts : SearchOptions) (repos : list string) idx
    (filesOpened duration elapsed : Z) sent :
  spawn query opts repos idx = Some sent ->
  Forall (fun x => err x = None /\ is_Some (res x)) sent ->
  - 2 ^ 63 <= filesOpened < 2 ^ 63 ->
  @searchAll FileMatch S1 query opts repos idx filesOpened duration elapsed
  = @searchAll FileMatch S2 query opts repos idx filesOpened duration elapsed.
Proof.
  intros Hs Hok Hfo. unfold searchAll. rewrite Hs.
  rewrite !collect_all_ok;
    [| by rewrite (@completion_perm _ S2) | exact Hfo
     | by rewrite (@completion_perm _ S1) | exact Hfo].
  rewrite (countedFiles_perm _ _ (@completion_perm _ S1 sent)).
  rewrite (countedFiles_perm _ _ (@completion_perm _ S2 sent)).
  assert (Hm : keepMatches ∅ (@completion _ S1 sent)
               = keepMatches ∅ (@completion _ S2 sent));
    [|by rewrite Hm].
  apply map_eq. intros name.
  assert (K : forall (S : Scheduler FileMatch) sr,
            keepMatches ∅ (@completion _ S sent) !! name = Some sr
            <-> exists x, x ∈ sent /\ repo x = name /\ res x = Some sr
                          /\ is_Some (Matches sr)).
  { intros S sr. rewrite keepMatches_lookup.
    - split; intros (x & Hx & Hrest); exists x;
        (split; [|exact Hrest]); by rewrite (@completion_perm _ S) in *.
    - intros x y Hx Hy. rewrite (@completion_perm _ S) in Hx, Hy.
      by apply (spawn_consistent query opts repos idx sent). }
  destruct (keepMatches ∅ (@completion _ S1 sent) !! name) as [sr|] eqn:E1.
  - symmetry. apply K. by apply (K S1).
  - destruct (keepMatches ∅ (@completion _ S2 sent) !! name) as [sr|] eqn:E2;
      [|reflexivity].
    apply (K S2), (K S1) in E2. congruence.
Qed.

End FanOutMore.

Section HandlersMore.
Context {FileMatch : Type} `{MapRange} `{UnicodeLower}.
Implicit Types idx : gmap string (Searcher FileMatch).

Lemma parseAsRepoList_accessible (v : string) idx (k : string)
    (urls : list string) (name : string) :
  name ∈ parseAsRepoList v idx k urls ->
  exists s, idx !! name = Some s /\ CheckAccess (Repo_ s) k urls = true.
Proof.
  unfold parseAsRepoList. cbv zeta.
  destruct (String.eqb (TrimSpace v) "*");
    [rewrite wildcardLoop_filter | rewrite explicitLoop_filter]; simpl;
    rewrite list_elem_of_In, filter_In, accessible_spec; tauto.
Qed.

Lemma reposLoop_lookup (entries : list (string * Searcher FileMatch))
    (k : string) (urls : list string) (res : gmap string Repo)
    (name : string) :
  NoDup entries.*1 ->
  reposLoop entries k urls res !! name
  = match (list_to_map entries : gmap string (Searcher FileMatch)) !! name
    with
    | Some s =>
        if CheckAccess (Repo_ s) k urls then Some (Repo_ s) else res !! name
    | None => res !! name
    end.
Proof.
  revert res. induction entries as [|[n s0] entries IH]; intros res Hnd.
  - simpl. by rewrite lookup_empty.
  - rewrite fmap_cons in Hnd. apply NoDup_cons in Hnd as [Hfresh Hnd].
    cbn [fst] in Hfresh. cbn [reposLoop list_to_map foldr fst snd].
    destruct (decide (n = name)) as [->|Hne].
    + rewrite lookup_insert_eq.
      assert (Hnone : (list_to_map entries
                         : gmap string (Searcher FileMatch)) !! name = None)
        by (by apply not_elem_of_list_to_map_1).
      destruct (CheckAccess (Repo_ s0) k urls); rewrite (IH _ Hnd), Hnone;
        [apply lookup_insert_eq | reflexivity].
    + rewrite lookup_insert_ne by exact Hne.
      destruct (CheckAccess (Repo_ s0) k urls); rewrite (IH _ Hnd);
        [|reflexivity].
      by rewrite lookup_insert_ne.
Qed.

(** X11. The repos listing holds a repository exactly when it is in the
    registry and the caller's key and session pass its access check, and
    then under its own name with its own configuration. *)
Theorem reposHandler_lookup idx (r : Request) (name : string) :
  reposHandler idx r !! name
  = match idx !! name with
    | Some s =>
        if CheckAccess (Repo_ s) (HoundAccessKey r) (sessionRepos r)
        then Some (Repo_ s) else None
    | None => None
    end.
Proof.
  unfold reposHandler.
  rewrite reposLoop_lookup by apply range_NoDup.
  rewrite range_to_map, lookup_empty. reflexivity.
Qed.

(** X12. The update handler triggers the resolved repositories in order and
    stops at the first whose update is refused: it answers 403 naming that
    repository, and the repositories before it stay triggered. *)
Theorem updateHandler_stops_at_refusal idx (r : Request)
    (pre post : list string) (name : string) (s : Searcher FileMatch) :
  Method r = "POST" ->
  parseAsRepoList (FormRepos r) idx (HoundAccessKey r) (sessionRepos r)
    = (pre ++ name :: post)%list ->
  Forall (fun n => exists s', idx !! n = Some s' /\ Update s' = true) pre ->
  idx !! name = Some s -> Update s = false ->
  updateHandler idx r
  = (mkResponse 403
       (ErrorBody ("Push updates are not enabled for repository " +:+ name)),
     pre).
Proof.
  intros Hm Hrepos Hpre Hs Hu. unfold updateHandler. rewrite Hm.
  replace (String.eqb "POST" "POST") with true by reflexivity. cbn [negb].
  fold (sessionRepos r). rewrite Hrepos.
  assert (K : forall acc,
            updateLoop idx (pre ++ name :: post) acc
            = (mkResponse 403
                 (ErrorBody ("Push updates are not enabled for repository "
                             +:+ name)), (acc ++ pre)%list)).
  { clear Hrepos.
    induction Hpre as [|n pre (s' & Hs' & Hu') _ IH]; intros acc; simpl.
    - rewrite Hs, Hu, app_nil_r. reflexivity.
    - rewrite Hs', Hu'. simpl. rewrite IH, <- app_assoc. reflexivity. }
  apply K.
Qed.

(** X13. When the update of every resolved repository is accepted, the
    handler answers ok and has triggered exactly the resolved
    repositories, in order. *)
Theorem updateHandler_all_triggered idx (r : Request) :
  Method r = "POST" ->
  Forall (fun n => exists s, idx !! n = Some s /\ Update s = true)
    (parseAsRepoList (FormRepos r) idx (HoundAccessKey r) (sessionRepos r)) ->
  updateHandler idx r
  = (mkResponse 200 (TextBody "ok"),
     parseAsRepoList (FormRepos r) idx (HoundAccessKey r) (sessionRepos r)).
Proof.
  intros Hm Hall. unfold updateHandler. rewrite Hm.
  replace (String.eqb "POST" "POST") with true by reflexivity. cbn [negb].
  fold (sessionRepos r).
  set (repos := parseAsRepoList _ _ _ _) in *.
  assert (K : forall acc,
            updateLoop idx repos acc
            = (mkResponse 200 (TextBody "ok"), (acc ++ repos)%list)).
  { induction Hall as [|n l (s & Hs & Hu) _ IH]; intros acc; simpl.
    - by rewrite app_nil_r.
    - rewrite Hs, Hu. simpl. rewrite IH, <- app_assoc. reflexivity. }
  apply K.
Qed.

Section SearchHandler.
Context `{Scheduler FileMatch}.

(** X14. Whatever the search handler shows comes from a repository the
    caller may access: each entry of the results is the response of a
    registry repository that passes the access check for the caller's key
    and session, searched with the request's query and options; the status
    is 200. *)
Theorem searchHandler_results_accessible idx (r : Request) (f : SearchForm)
    (elapsed status : Z)
    (results : gmap string (SearchResponse FileMatch))
    (stats : option Stats) (name : string) (sr : SearchResponse FileMatch) :
  searchHandler idx r f elapsed = ReplyResults status (Some results) stats ->
  results !! name = Some sr ->
  status = 200
  /\ exists s, idx !! name = Some s
       /\ CheckAccess (Repo_ s) (HoundAccessKey r) (sessionRepos r) = true
       /\ Search s (Form_q f) (searchOptions f) = (Some sr, None).
Proof.
  unfold searchHandler. cbv zeta.
  set (repos := parseAsRepoList _ _ _ _).
  destruct (searchAll (Form_q f) (searchOptions f) repos idx 0 0 elapsed)
    as [out [e|] fo d|] eqn:Hsa; [discriminate| |discriminate].
  intros [= <- -> _] Hl. split; [reflexivity|].
  unfold searchAll in Hsa.
  destruct (spawn (Form_q f) (searchOptions f) repos idx) as [sent|] eqn:Hs;
    [|discriminate].
  apply collect_returned in Hsa as [[= ->] Hall].
  apply keepMatches_lookup in Hl as (x & Hx & <- & Hr & _).
  - rewrite completion_perm in Hx.
    rewrite completion_perm, Forall_forall in Hall.
    destruct (Hall x Hx) as [He _].
    destruct (sent_origin _ _ _ _ _ _ Hs Hx) as (Hin & s & Hidx & Hsr).
    destruct (parseAsRepoList_accessible _ _ _ _ _ Hin) as (s' & Hidx' & Ha).
    exists s. rewrite Hidx' in Hidx. injection Hidx as ->.
    rewrite Hsr, Hr, He. auto.
  - intros x y Hx Hy. rewrite completion_perm in Hx, Hy.
    by apply (spawn_consistent (Form_q f) (searchOptions f) repos idx sent).
Qed.

(** X15. A failed search is reported in band, and only about a repository
    the caller may access: the handler answers with status 200 and the
    error of a registry repository that passes the caller's access
    check. *)
Theorem searchHandler_error_in_band idx (r : Request) (f : SearchForm)
    (elapsed status : Z) (msg : string) :
  searchHandler idx r f elapsed = ReplyError status msg ->
  status = 200
  /\ exists name s, idx !! name = Some s
       /\ CheckAccess (Repo_ s) (HoundAccessKey r) (sessionRepos r) = true
       /\ snd (Search s (Form_q f) (searchOptions f)) = Some msg.
Proof.
  unfold searchHandler. cbv zeta.
  set (repos := parseAsRepoList _ _ _ _).
  destruct (searchAll (Form_q f) (searchOptions f) repos idx 0 0 elapsed)
    as [out [e|] fo d|] eqn:Hsa; [|discriminate|discriminate].
  intros [= <- ->]. split; [reflexivity|].
  unfold searchAll in Hsa.
  destruct (spawn (Form_q f) (searchOptions f) repos idx) as [sent|] eqn:Hs;
    [|discriminate].
  apply collect_returned in Hsa as [_ (x & Hx & He)].
  rewrite completion_perm in Hx.
  destruct (sent_origin _ _ _ _ _ _ Hs Hx) as (Hin & s & Hidx & Hsr).
  destruct (parseAsRepoList_accessible _ _ _ _ _ Hin) as (s' & Hidx' & Ha).
  exists (repo x), s. rewrite Hidx' in Hidx. injection Hidx as ->.
  rewrite Hsr. auto.
Qed.

End SearchHandler.
End HandlersMore.

Section Defaults.

(** X16. [initRepo] fills in what is missing and keeps what is
    configured: a poll interval of 0 becomes 30000, an empty VCS kind
    becomes git, a missing URL pattern or an empty part of it becomes the
    default; every other value, among them the access fields, the VCS
    blob, the dot-files flag and the two update flags, stays as it is.
    Afterwards the interval is not 0, the kind and both parts of the
    pattern are not empty, and applying [initRepo] again changes
    nothing. *)
Theorem initRepo_defaults (r : Repo) :
  (MsBetweenPolls r = 0 -> MsBetweenPolls (initRepo r) = 30000)
  /\ (MsBetweenPolls r <> 0 -> MsBetweenPolls (initRepo r) = MsBetweenPolls r)
  /\ (Vcs r = EmptyString -> Vcs (initRepo r) = "git")
  /\ (Vcs r <> EmptyString -> Vcs (initRepo r) = Vcs r)
  /\ (UrlPattern_ r = None ->
      UrlPattern_ (initRepo r)
      = Some (mkUrlPattern "{url}/blob/{rev}/{path}{anchor}" "#L{line}"))
  /\ (forall p0, UrlPattern_ r = Some p0 ->
      exists p, UrlPattern_ (initRepo r) = Some p
        /\ (BaseUrl p0 = EmptyString ->
            BaseUrl p = "{url}/blob/{rev}/{path}{anchor}")
        /\ (BaseUrl p0 <> EmptyString -> BaseUrl p = BaseUrl p0)
        /\ (Anchor p0 = EmptyString -> Anchor p = "#L{line}")
        /\ (Anchor p0 <> EmptyString -> Anchor p = Anchor p0))
  /\ AccessKeys (initRepo r) = AccessKeys r
  /\ OAuthAuthorization (initRepo r) = OAuthAuthorization r
  /\ Url (initRepo r) = Url r
  /\ VcsConfigMessage (initRepo r) = VcsConfigMessage r
  /\ ExcludeDotFiles (initRepo r) = ExcludeDotFiles r
  /\ EnablePollUpdates (initRepo r) = EnablePollUpdates r
  /\ EnablePushUpdates (initRepo r) = EnablePushUpdates r
  /\ MsBetweenPolls (initRepo r) <> 0
  /\ Vcs (initRepo r) <> EmptyString
  /\ (exists p, UrlPattern_ (initRepo r) = Some p
                /\ BaseUrl p <> EmptyString /\ Anchor p <> EmptyString)
  /\ initRepo (initRepo r) = initRepo r.
Proof.
  destruct r as [ak oa url ms vcs vm up ex ep eu].
  unfold initRepo, defaultMsBetweenPoll, defaultVcs, defaultBaseUrl,
    defaultAnchor.
  cbn [MsBetweenPolls Vcs UrlPattern_ AccessKeys OAuthAuthorization Url
       VcsConfigMessage ExcludeDotFiles EnablePollUpdates EnablePushUpdates].
  assert (Hms : (if ms =? 0 then 30000 else ms) <> 0).
  { destruct (Z.eqb_spec ms 0); [discriminate | assumption]. }
  assert (Hvcs : (if String.eqb vcs EmptyString then "git" else vcs)
                 <> EmptyString).
  { destruct (String.eqb_spec vcs EmptyString); [discriminate | assumption]. }
  set (pat := match up with
              | Some p =>
                  mkUrlPattern
                    (if String.eqb (BaseUrl p) EmptyString
                     then "{url}/blob/{rev}/{path}{anchor}" else BaseUrl p)
                    (if String.eqb (Anchor p) EmptyString
                     then "#L{line}" else Anchor p)
              | None =>
                  mkUrlPattern "{url}/blob/{rev}/{path}{anchor}" "#L{line}"
              end).
  assert (Hpat : BaseUrl pat <> EmptyString /\ Anchor pat <> EmptyString).
  { subst pat. destruct up as [[b a]|]; cbn [BaseUrl Anchor];
      [|split; discriminate].
    destruct (String.eqb_spec b EmptyString), (String.eqb_spec a EmptyString);
      split; first [discriminate | assumption]. }
  repeat match goal with |- _ /\ _ => split end;
    try assumption; try reflexivity.
  - intros ->. reflexivity.
  - intros Hne. destruct (Z.eqb_spec ms 0); [contradiction | reflexivity].
  - intros ->. reflexivity.
  - intros Hne.
    destruct (String.eqb_spec vcs EmptyString); [contradiction | reflexivity].
  - intros ->. reflexivity.
  - intros p0 ->. exists pat. subst pat. destruct p0 as [b a].
    cbn [BaseUrl Anchor]. split; [reflexivity|].
    destruct (String.eqb_spec b EmptyString), (String.eqb_spec a EmptyString);
      repeat split; intros; first [reflexivity | contradiction].
  - exists pat. tauto.
  - apply Z.eqb_neq in Hms. apply String.eqb_neq in Hvcs.
    destruct Hpat as [Hb Ha].
    apply String.eqb_neq in Hb, Ha. rewrite Hms, Hvcs, Hb, Ha.
    destruct pat. reflexivity.
Qed.

(** A repository with nothing but a URL, and one with its own interval,
    kind and base URL. *)
Example initRepo_samples :
  initRepo (mkRepo None None "u" 0 EmptyString None None true None
                   (Some true))
    = mkRepo None None "u" 30000 "git" None
        (Some (mkUrlPattern "{url}/blob/{rev}/{path}{anchor}" "#L{line}"))
        true None (Some true)
  /\ initRepo (mkRepo (Some ["k"]) (Some false) "u" 500 "hg" (Some "{}")
                 (Some (mkUrlPattern "{url}/src/{path}" EmptyString))
                 false (Some false) None)
     = mkRepo (Some ["k"]) (Some false) "u" 500 "hg" (Some "{}")
         (Some (mkUrlPattern "{url}/src/{path}" "#L{line}"))
         false (Some false) None.
Proof. split; reflexivity. Qed.

End Defaults.

Section RefResolution.
Context `{Exec}.

(** X17. The ref [targetRef] resolves to is never the empty string,
    whatever the driver's options and detector are. *)
Theorem targetRef_never_empty (g : GitDriver) (dir : string) (st : State) :
  fst (targetRef g dir st) <> EmptyString.
Proof.
  unfold targetRef, mbind.
  destruct ((if negb (String.eqb (Ref g) EmptyString) then ret (Ref g)
             else if DetectRef g then refDetetector g dir
             else ret EmptyString) st) as [r s1].
  destruct (String.eqb_spec r EmptyString); simpl; [discriminate | assumption].
Qed.

Lemma stripPrefix_Some (p s r : string) :
  stripPrefix p s = Some r -> s = p +:+ r.
Proof.
  revert s. induction p as [|a p IH]; intros s; simpl.
  - by intros [= ->].
  - destruct s as [|b s]; [discriminate|].
    destruct (Ascii.eqb_spec a b) as [->|]; [|discriminate].
    intros Hs. apply IH in Hs.
    change (String b s = String b (p +:+ r)). by f_equal.
Qed.

Lemma restOfLine_split (s : string) :
  exists post,
    s = restOfLine s +:+ post
    /\ ~ In LF (list_ascii_of_string (restOfLine s))
    /\ (post = EmptyString \/ exists post', post = String LF post').
Proof.
  induction s as [|c s (post & Hs & Hno & Hpost)]; simpl.
  - exists EmptyString. split; [reflexivity|]. split; [tauto | by left].
  - destruct (Ascii.eqb_spec c LF) as [->|Hc].
    + exists (String LF s). split; [reflexivity|]. split; [simpl; tauto|].
      right. eauto.
    + exists post. split.
      * change (String c s = String c (restOfLine s +:+ post)). by f_equal.
      * split; [|exact Hpost]. simpl. intros [Heq|Hin]; [congruence | tauto].
Qed.

Lemma FindStringSubmatch_sound (s whole branch : string) :
  FindStringSubmatch s = [whole; branch] ->
  whole = headBranchPrefix +:+ branch
  /\ branch <> EmptyString
  /\ ~ In LF (list_ascii_of_string branch)
  /\ exists pre post,
       s = pre +:+ headBranchPrefix +:+ branch +:+ post
       /\ (post = EmptyString \/ exists post', post = String LF post').
Proof.
  induction s as [|c s IH]; [discriminate|].
  cbn [FindStringSubmatch].
  assert (Hnext : FindStringSubmatch s = [whole; branch] ->
            whole = headBranchPrefix +:+ branch
            /\ branch <> EmptyString
            /\ ~ In LF (list_ascii_of_string branch)
            /\ exists pre post,
                 String c s = pre +:+ headBranchPrefix +:+ branch +:+ post
                 /\ (post = EmptyString
                     \/ exists post', post = String LF post')).
  { intros Hf. destruct (IH Hf) as (Hw & Hb & Hno & pre & post & Hs & Hp).
    repeat split; try assumption.
    exists (String c pre), post. split; [|exact Hp].
    change (String c s
            = String c (pre +:+ headBranchPrefix +:+ branch +:+ post)).
    by f_equal. }
  destruct (stripPrefix headBranchPrefix (String c s)) as [rest|] eqn:Hp;
    [|exact Hnext].
  destruct (restOfLine rest) as [|a b] eqn:Hr; [exact Hnext|].
  intros [= <- <-]. split; [reflexivity|]. split; [discriminate|].
  destruct (restOfLine_split rest) as (post & Hrest & Hno & Hpost).
  rewrite Hr in Hrest, Hno. split; [exact Hno|].
  exists EmptyString, post. split; [|exact Hpost].
  apply stripPrefix_Some in Hp. rewrite Hp, Hrest. reflexivity.
Qed.

(** X18. What [detectRef] answers is either empty or a piece of the remote
    query's output: a non-empty text without a newline that follows the
    words HEAD branch and runs to the end of its line. *)
Theorem detectRef_from_output (dir : string) (st : State) :
  let output :=
    fst (fst (CombinedOutput dir "git" ["remote"; "show"; "origin"]
                (world st))) in
  let branch := fst (detectRef dir st) in
  branch = EmptyString
  \/ (~ In LF (list_ascii_of_string branch)
      /\ exists pre post,
           output = pre +:+ "HEAD branch: " +:+ branch +:+ post
           /\ (post = EmptyString \/ exists post', post = String LF post')).
Proof.
  cbv zeta. rewrite detectRef_parses_output.
  destruct (FindStringSubmatch_shape
              (fst (fst (CombinedOutput dir "git"
                           ["remote"; "show"; "origin"] (world st)))))
    as [-> | (b & Hb & Hf)]; [by left|].
  rewrite Hf. right.
  destruct (FindStringSubmatch_sound _ _ _ Hf) as (_ & _ & Hno & Hex).
  split; assumption.
Qed.

End RefResolution.

Section ConfigMergeMore.
Context `{MapRange} `{JSONCodec}.
Implicit Types (globals : gmap string (option (gmap string JVal))).

Lemma withVcsConfigMessage_same (r : Repo) :
  withVcsConfigMessage (VcsConfigMessage r) r = r.
Proof. by destruct r. Qed.

Lemma mergeRepo_blob_only globals (repo repo' : Repo) :
  mergeRepo globals repo = Done repo' ->
  exists blob, repo' = withVcsConfigMessage blob repo.
Proof.
  unfold mergeRepo. destruct (globals !! Vcs repo) as [globalVals|].
  - destruct (decodeRepoVals (VcsConfig repo)) as [repoVals|e|];
      [|discriminate|discriminate]. simpl.
    destruct (fillMissing (go_range globalVals) repoVals) as [merged|e|];
      [|discriminate|discriminate]. simpl.
    destruct (Marshal merged) as [e|out]; [discriminate|].
    intros [= <-]. eauto.
  - intros [= <-]. exists (VcsConfigMessage repo).
    by rewrite withVcsConfigMessage_same.
Qed.

Lemma mergeLoop_frame globals (l : list (string * Repo))
    (repos repos' : gmap string Repo) (r : result unit) :
  mergeLoop globals l repos = (r, repos') -> NoDup l.*1 ->
  (forall n repo, (n, repo) ∈ l -> repos !! n = Some repo) ->
  forall name,
    match repos !! name with
    | Some repo =>
        exists blob, repos' !! name = Some (withVcsConfigMessage blob repo)
    | None => repos' !! name = None
    end.
Proof.
  revert repos. induction l as [|[n r0] l IH]; intros repos; cbn [mergeLoop].
  - intros [= _ <-] _ _ name. destruct (repos !! name) as [repo|] eqn:E;
      [|reflexivity].
    exists (VcsConfigMessage repo). by rewrite withVcsConfigMessage_same.
  - intros Hm Hnd Hin name. rewrite fmap_cons in Hnd.
    apply NoDup_cons in Hnd as [Hfresh Hnd]. cbn [fst] in Hfresh.
    assert (Hsame : forall repos0, repos' = repos0 ->
              match repos0 !! name with
              | Some repo =>
                  exists blob,
                    repos' !! name = Some (withVcsConfigMessage blob repo)
              | None => repos' !! name = None
              end).
    { intros repos0 ->. destruct (repos0 !! name) as [repo|] eqn:E;
        [|reflexivity].
      exists (VcsConfigMessage repo). by rewrite withVcsConfigMessage_same. }
    destruct (mergeRepo globals r0) as [r0'|e|] eqn:Hr0;
      [| injection Hm as _ <-; by apply Hsame
       | injection Hm as _ <-; by apply Hsame].
    apply mergeRepo_blob_only in Hr0 as [blob ->].
    assert (Hn : repos !! n = Some r0) by (apply Hin; left).
    destruct (decide (n = name)) as [<-|Hne].
    + rewrite Hn. exists blob.
      rewrite (mergeLoop_other _ _ _ _ _ _ Hm Hfresh).
      apply lookup_insert_eq.
    + assert (Hpre : forall m repo, (m, repo) ∈ l ->
                <[n := withVcsConfigMessage blob r0]> repos !! m = Some repo).
      { intros m repo Hmin.
        rewrite lookup_insert_ne; [apply Hin; by right|].
        intros ->. apply Hfresh. apply list_elem_of_fmap. by exists (m, repo). }
      pose proof (IH _ Hm Hnd Hpre name) as IH'.
      by rewrite lookup_insert_ne in IH' by exact Hne.
Qed.

(** X19. Whether it succeeds or fails, [mergeVCSConfigs] neither adds nor
    removes a repository, changes of a repository nothing but its VCS
    blob, and leaves the rest of the configuration as it is. *)
Theorem mergeVCSConfigs_frame (cfg cfg' : Config) (e : option error)
    (name : string) :
  mergeVCSConfigs cfg = Returned cfg' e ->
  match Repos cfg !! name with
  | Some repo =>
      exists blob,
        Repos cfg' !! name = Some (withVcsConfigMessage blob repo)
  | None => Repos cfg' !! name = None
  end
  /\ VCSConfigMessages cfg' = VCSConfigMessages cfg
  /\ DbPath cfg' = DbPath cfg /\ Title cfg' = Title cfg
  /\ MaxConcurrentIndexers cfg' = MaxConcurrentIndexers cfg
  /\ HealthCheckURI cfg' = HealthCheckURI cfg.
Proof.
  intros Hm.
  assert (Hsame : cfg' = cfg ->
            match Repos cfg !! name with
            | Some repo =>
                exists blob,
                  Repos cfg' !! name = Some (withVcsConfigMessage blob repo)
            | None => Repos cfg' !! name = None
            end
            /\ VCSConfigMessages cfg' = VCSConfigMessages cfg
            /\ DbPath cfg' = DbPath cfg /\ Title cfg' = Title cfg
            /\ MaxConcurrentIndexers cfg' = MaxConcurrentIndexers cfg
            /\ HealthCheckURI cfg' = HealthCheckURI cfg).
  { intros ->. split; [|tauto].
    destruct (Repos cfg !! name) as [repo|] eqn:E; [|reflexivity].
    exists (VcsConfigMessage repo). by rewrite withVcsConfigMessage_same. }
  unfold mergeVCSConfigs in Hm.
  destruct (size (VCSConfigMessages cfg) =? 0)%nat;
    [injection Hm as <- _; by apply Hsame|].
  destruct (decodeGlobals (range (VCSConfigMessages cfg)) ∅)
    as [globals|e0|] eqn:Hd;
    [|injection Hm as <- _; by apply Hsame|discriminate].
  destruct (mergeLoop globals (range (Repos cfg)) (Repos cfg))
    as [r repos] eqn:Hl.
  assert (Hf := mergeLoop_frame _ _ _ _ _ Hl (range_NoDup _)
                  (fun n repo Hin => proj1 (range_lookup _ _ _) Hin) name).
  destruct r as [u|e1|]; [| |discriminate];
    injection Hm as <- _; (split; [exact Hf | by repeat split]).
Qed.

Lemma decodeGlobals_fails (l : list (string * option SecretMessage))
    (acc : gmap string (option (gmap string JVal))) :
  Forall (fun kv => kv.2 <> None) l ->
  Exists (fun kv => exists b e, kv.2 = Some b /\ Unmarshal b = inl e) l ->
  exists k b e, (k, Some b) ∈ l /\ Unmarshal b = inl e
                /\ decodeGlobals l acc = Fail e.
Proof.
  intros Hall. revert acc.
  induction Hall as [|[k [b|]] l Hk Hall IH]; intros acc Hex.
  - by apply Exists_nil in Hex.
  - simpl. destruct (Unmarshal b) as [e|vals] eqn:Hu.
    + exists k, b, e. split; [left | auto].
    + apply Exists_cons in Hex as [(b' & e & [= <-] & Hu')|Hex];
        [congruence|].
      destruct (IH (<[k := vals]> acc) Hex) as (k' & b' & e & Hin & Hu' & Hd).
      exists k', b', e. split; [by right | auto].
  - by destruct Hk.
Qed.

(** X20. A global default blob that does not decode makes [mergeVCSConfigs]
    fail with a decoding error before any repository is touched: the
    configuration comes back as it was. *)
Theorem mergeVCSConfigs_undecodable_global (cfg : Config) (vcs : string)
    (blob : string) (e : error) :
  VCSConfigMessages cfg !! vcs = Some (Some blob) ->
  Unmarshal blob = inl e ->
  (forall k, VCSConfigMessages cfg !! k <> Some None) ->
  exists k b e',
    VCSConfigMessages cfg !! k = Some (Some b) /\ Unmarshal b = inl e'
    /\ mergeVCSConfigs cfg = Returned cfg (Some e').
Proof.
  intros Hv Hu Hnonnil. unfold mergeVCSConfigs.
  destruct (size (VCSConfigMessages cfg) =? 0)%nat eqn:Hsz.
  { apply Nat.eqb_eq, map_size_empty_iff in Hsz.
    rewrite Hsz, lookup_empty in Hv. discriminate. }
  destruct (decodeGlobals_fails (range (VCSConfigMessages cfg)) ∅)
    as (k & b & e' & Hin & Hu' & Hd).
  - apply Forall_forall. intros [k [b|]] Hin; [discriminate|].
    apply range_lookup in Hin. by apply Hnonnil in Hin.
  - apply Exists_exists. exists (vcs, Some blob).
    split; [by apply range_lookup | simpl; eauto].
  - exists k, b, e'. rewrite Hd. apply range_lookup in Hin. auto.
Qed.

End ConfigMergeMore.

Section LinkHeader.

Lemma revString_append (a b : string) :
  revString (a +:+ b) EmptyString
  = revString b EmptyString +:+ revString a EmptyString.
Proof.
  induction a as [|c a IH].
  - change (EmptyString +:+ b) with b. by rewrite append_nil_r.
  - change (String c a +:+ b) with (String c (a +:+ b)). cbn [revString].
    rewrite (revString_app (a +:+ b)), (revString_app a), IH.
    by rewrite append_assoc.
Qed.

Lemma revString_involutive (s : string) :
  revString (revString s EmptyString) EmptyString = s.
Proof.
  induction s as [|c s IH]; [reflexivity|]. cbn [revString].
  rewrite (revString_app s), revString_append, IH. reflexivity.
Qed.

Lemma stripPrefix_app (p r : string) : stripPrefix p (p +:+ r) = Some r.
Proof.
  induction p as [|c p IH]; [reflexivity|].
  change (String c p +:+ r) with (String c (p +:+ r)). cbn [stripPrefix].
  by rewrite Ascii.eqb_refl.
Qed.

Lemma stripSuffix_app (a suffix : string) :
  stripSuffix suffix (a +:+ suffix) = Some a.
Proof.
  unfold stripSuffix.
  by rewrite revString_append, stripPrefix_app, revString_involutive.
Qed.

Lemma splitCommaSpace_part (p rest cur : string) :
  containsCommaSpace p = false ->
  splitCommaSpace (p +:+ ", " +:+ rest) cur
  = (revString cur EmptyString +:+ p) :: splitCommaSpace rest EmptyString.
Proof.
  revert cur. induction p as [|c p IH]; intros cur Hno.
  - by rewrite append_nil_r.
  - change (String c p +:+ ", " +:+ rest)
      with (String c (p +:+ ", " +:+ rest)).
    assert (Hstep : containsCommaSpace p = false ->
              splitCommaSpace (p +:+ ", " +:+ rest) (String c cur)
              = (revString cur EmptyString +:+ String c p)
                  :: splitCommaSpace rest EmptyString).
    { intros Hp. rewrite (IH _ Hp). cbn [revString].
      rewrite (revString_app cur), append_assoc. reflexivity. }
    cbn [splitCommaSpace containsCommaSpace] in *.
    destruct (Ascii.eqb c ","%char).
    + destruct p as [|d p].
      * by apply Hstep.
      * change (String d p +:+ ", " +:+ rest)
          with (String d (p +:+ ", " +:+ rest)) in *.
        cbv beta iota.
        destruct (Ascii.eqb d " "%char); [discriminate | by apply Hstep].
    + destruct (p +:+ ", " +:+ rest); by apply Hstep.
Qed.

Lemma splitCommaSpace_last (p cur : string) :
  containsCommaSpace p = false ->
  splitCommaSpace p cur = [revString cur EmptyString +:+ p].
Proof.
  revert cur. induction p as [|c p IH]; intros cur Hno.
  - by rewrite append_nil_r.
  - assert (Hstep : containsCommaSpace p = false ->
              splitCommaSpace p (String c cur)
              = [revString cur EmptyString +:+ String c p]).
    { intros Hp. rewrite (IH _ Hp). cbn [revString].
      rewrite (revString_app cur), append_assoc. reflexivity. }
    cbn [splitCommaSpace containsCommaSpace] in *.
    destruct (Ascii.eqb c ","%char).
    + destruct p as [|d p]; [by apply Hstep|]. cbv beta iota in *.
      destruct (Ascii.eqb d " "%char); [discriminate | by apply Hstep].
    + destruct p; by apply Hstep.
Qed.

(** Cutting a header at its separators gives back the entries it was
    joined from. *)
Lemma SplitCommaSpace_concat (parts : list string) :
  parts <> [] ->
  Forall (fun p => containsCommaSpace p = false) parts ->
  SplitCommaSpace (String.concat ", " parts) = parts.
Proof.
  intros Hne Hall. unfold SplitCommaSpace.
  induction Hall as [|p parts Hp Hall IH]; [congruence|].
  destruct parts as [|q parts].
  - simpl. by rewrite splitCommaSpace_last.
  - change (String.concat ", " (p :: q :: parts))
      with (p +:+ ", " +:+ String.concat ", " (q :: parts)).
    rewrite splitCommaSpace_part by exact Hp. rewrite IH by discriminate.
    reflexivity.
Qed.

Lemma linkLoop_app (l1 l2 : list string) (link : string) :
  Gitlab.linkLoop (l1 ++ l2) link
  = Gitlab.linkLoop l2 (Gitlab.linkLoop l1 link).
Proof.
  revert link. induction l1 as [|rel l1 IH]; intros link; simpl;
    [reflexivity|].
  destruct (HasSuffix rel Gitlab.relNext); simpl; apply IH.
Qed.

Lemma linkLoop_no_next (l : list string) (link : string) :
  Forall (fun rel => HasSuffix rel Gitlab.relNext = false) l ->
  Gitlab.linkLoop l link = link.
Proof.
  intros Hall. revert link.
  induction Hall as [|rel l Hrel _ IH]; intros link; simpl; [reflexivity|].
  rewrite Hrel. simpl. apply IH.
Qed.

(** X21. Round trip of the link header: from a header joined out of entries
    with a comma and a space, [getLinkHeaderLink] gives back the URL of the
    entry marked next, wherever it stands, when no entry after it is
    marked next. *)
Theorem getLinkHeaderLink_next (pre post : list string) (url : string) :
  Forall (fun p => containsCommaSpace p = false)
         (pre ++ Gitlab.linkEntry url "next" :: post) ->
  Forall (fun rel => HasSuffix rel Gitlab.relNext = false) post ->
  Gitlab.getLinkHeaderLink
    (String.concat ", " (pre ++ Gitlab.linkEntry url "next" :: post))
  = url.
Proof.
  intros Hno Hpost. unfold Gitlab.getLinkHeaderLink.
  rewrite SplitCommaSpace_concat; [|by destruct pre | exact Hno].
  rewrite linkLoop_app. cbn [Gitlab.linkLoop].
  assert (Hentry : Gitlab.linkEntry url "next"
                   = "<" +:+ (url +:+ (">; " +:+ Gitlab.relNext)))
    by reflexivity.
  assert (Hsuf : HasSuffix (Gitlab.linkEntry url "next") Gitlab.relNext
                 = true).
  { unfold HasSuffix.
    replace (Gitlab.linkEntry url "next")
      with (("<" +:+ url +:+ ">; ") +:+ Gitlab.relNext).
    - by rewrite stripSuffix_app.
    - rewrite Hentry, !append_assoc. reflexivity. }
  rewrite Hsuf. cbn [negb]. rewrite linkLoop_no_next by exact Hpost.
  rewrite Hentry. unfold TrimPrefix, TrimSuffix.
  rewrite stripPrefix_app, stripSuffix_app. reflexivity.
Qed.

End LinkHeader.

Section Discovery.
Import Gitlab.
Context `{HttpClient}.

Lemma fetchPages_serves (g : Gitlab) (pages : list PageResponse)
    (fuel : nat) (url : string) (projects : list Project) (net final : Net) :
  servesPages g url pages net final ->
  (length pages <= fuel)%nat ->
  fetchPages fuel g url projects net
  = (Got (inr (projects ++ concat (map PageProjects pages))%list), final).
Proof.
  revert fuel url projects net.
  induction pages as [|r rest IH]; intros fuel url projects net;
    [intros []|].
  intros (net' & Hdo & Hst & Hrest) Hfuel.
  destruct fuel as [|fuel]; [simpl in Hfuel; lia|].
  cbn [fetchPages]. rewrite Hdo, Hst. cbn [Z.eqb Pos.eqb negb].
  cbn [map concat]. rewrite app_assoc.
  destruct rest as [|r' rest].
  - destruct Hrest as [Hlink ->]. cbn [map concat]. rewrite app_nil_r.
    destruct (String.eqb_spec (LinkHeader r) EmptyString); [reflexivity|].
    destruct Hlink as [Hl|Hl]; [contradiction|].
    rewrite Hl. reflexivity.
  - destruct Hrest as (Hl & Hn & Hserve).
    apply String.eqb_neq in Hl, Hn. rewrite Hl, Hn.
    apply IH; [exact Hserve | simpl in *; lia].
Qed.

(** X22. Pagination: when the API serves a chain of pages and the fuel
    covers its length, [GetProjects] visits every page once, in order, and
    returns all their projects, provided their number does not exceed a
    limit other than 0. *)
Theorem GetProjects_all_pages (g : Gitlab) (pages : list PageResponse)
    (fuel : nat) (net final : Net) :
  servesPages g (firstPage g) pages net final ->
  (length pages <= fuel)%nat ->
  MaxProjects g = 0
  \/ Z.of_nat (length (concat (map PageProjects pages))) <= MaxProjects g ->
  GetProjects fuel g net
  = (Got (inr (concat (map PageProjects pages))), final).
Proof.
  intros Hs Hfuel Hmax. unfold GetProjects.
  rewrite (fetchPages_serves g pages fuel _ [] net final Hs Hfuel).
  cbn [app].
  destruct (Z.eqb_spec (MaxProjects g) 0) as [Hz|Hz]; [reflexivity|].
  destruct (Z.gtb_spec (Z.of_nat (length (concat (map PageProjects pages))))
              (MaxProjects g)); [lia | reflexivity].
Qed.

(** X23. With a limit other than 0, [GetProjects] never returns more
    projects than the limit, however many pages it has read. *)
Theorem GetProjects_within_limit (g : Gitlab) (fuel : nat) (net net' : Net)
    (projects : list Project) :
  GetProjects fuel g net = (Got (inr projects), net') ->
  MaxProjects g <> 0 ->
  Z.of_nat (length projects) <= MaxProjects g.
Proof.
  unfold GetProjects.
  destruct (fetchPages fuel g (firstPage g) [] net) as [[[e|ps]|] n];
    [discriminate| |discriminate].
  destruct (Z.eqb_spec (MaxProjects g) 0) as [Hz|Hz]; cbn [negb andb].
  - intros _ Hne. contradiction.
  - destruct (Z.gtb_spec (Z.of_nat (length ps)) (MaxProjects g));
      [discriminate|].
    intros [= <- _] _. assumption.
Qed.

Lemma addProjects_lookup (g : Gitlab) (projects : list Project)
    (repos : gmap string Repo) (skipped : list string) (name : string) :
  fst (addProjects g projects repos skipped) !! name
  = match repos !! name with
    | Some r => Some r
    | None =>
        discovered g <$> List.find (fun p => String.eqb (Name p) name) projects
    end.
Proof.
  revert repos skipped.
  induction projects as [|proj projects IH]; intros repos skipped.
  - simpl. by destruct (repos !! name).
  - cbn [addProjects List.find].
    destruct (repos !! Name proj) as [r0|] eqn:Hp.
    + rewrite IH. destruct (repos !! name) as [r|] eqn:Hn; [reflexivity|].
      destruct (String.eqb_spec (Name proj) name) as [Heq|]; [|reflexivity].
      congruence.
    + rewrite IH.
      destruct (String.eqb_spec (Name proj) name) as [<-|Hne].
      * by rewrite lookup_insert_eq, Hp.
      * by rewrite lookup_insert_ne.
Qed.

(** X24. Discovery never replaces a configured repository: every entry the
    map had before [GetGitlabRepos] is still there, unchanged, whatever
    GitLab reports under that name. *)
Theorem GetGitlabRepos_keeps_configured (fuel : nat) (g : Gitlab)
    (repos repos' : gmap string Repo) (skipped : list string)
    (net net' : Net) (name : string) (repo : Repo) :
  GetGitlabRepos fuel g repos net = (Synced repos' skipped, net') ->
  repos !! name = Some repo ->
  repos' !! name = Some repo.
Proof.
  unfold GetGitlabRepos.
  destruct (GetProjects fuel g net) as [[[e|projects]|] n];
    [discriminate| |discriminate].
  pose proof (addProjects_lookup g projects repos [] name) as L.
  destruct (addProjects g projects repos []) as [rs sk].
  intros [= <- _ _] Hn. cbn [fst] in L. by rewrite L, Hn.
Qed.

(** X25. A name that was not configured is entered for the first fetched
    project of that name, with the template's options and that project's
    URL; a name no fetched project has stays absent. *)
Theorem GetGitlabRepos_enters_first (fuel : nat) (g : Gitlab)
    (repos repos' : gmap string Repo) (skipped : list string)
    (net net' : Net) :
  GetGitlabRepos fuel g repos net = (Synced repos' skipped, net') ->
  exists projects,
    GetProjects fuel g net = (Got (inr projects), net')
    /\ forall name,
         repos !! name = None ->
         repos' !! name
         = discovered g
             <$> List.find (fun p => String.eqb (Name p) name) projects.
Proof.
  intros Hg. unfold GetGitlabRepos in Hg.
  destruct (GetProjects fuel g net) as [[[e|projects]|] n];
    [discriminate| |discriminate].
  exists projects.
  destruct (addProjects g projects repos []) as [rs sk] eqn:Ha.
  injection Hg as <- _ <-. split; [reflexivity|].
  intros name Hn.
  pose proof (addProjects_lookup g projects repos [] name) as L.
  rewrite Ha in L. cbn [fst] in L. by rewrite L, Hn.
Qed.

End Discovery.

Section MoreSamples.
Import Concrete.
Local Existing Instance listOrder.
Local Existing Instance asciiOnly.

Lemma searchAll_result_or_error_witness :
  (None : option (gmap string (SearchResponse nat))) = None
  /\ exists name s, name ∈ ["A"; "B"; "C"] /\ abc !! name = Some s
                    /\ snd (Search s "q" noOptions) = Some "index closed".
Proof.
  apply (@searchAll_result_or_error nat (inOrder nat) "q" noOptions
           ["A"; "B"; "C"] abc 0 0 40 3 0 None (Some "index closed")).
  vm_compute. reflexivity.
Defined.

Lemma searchAll_order_independent_witness :
  @searchAll nat (inOrder nat) "q" noOptions ["A"; "C"] abc 0 0 40
  = @searchAll nat (reversed nat) "q" noOptions ["A"; "C"] abc 0 0 40.
Proof.
  apply (searchAll_order_independent (inOrder nat) (reversed nat) "q"
           noOptions ["A"; "C"] abc 0 0 40
           [mkSearchResp "A" (Some (mkSearchResponse (Some [1%nat]) 3)) None;
            mkSearchResp "C" (Some (mkSearchResponse (Some [2%nat]) 5)) None]).
  - reflexivity.
  - repeat constructor; simpl; eauto.
  - lia.
Defined.

Lemma updateHandler_stops_at_refusal_witness :
  updateHandler registry (mkRequest "POST" "k1" None "foo,bar,foo")
  = (mkResponse 403
       (ErrorBody "Push updates are not enabled for repository bar"),
     ["foo"]).
Proof.
  apply (updateHandler_stops_at_refusal registry
           (mkRequest "POST" "k1" None "foo,bar,foo") ["foo"] ["foo"] "bar"
           (fixedSearcher (sampleRepo (Some ["k1"]) (Some true)
                             "https://h/bar" None)
              (found (Some [2%nat]) 5))).
  - reflexivity.
  - vm_compute. reflexivity.
  - repeat constructor. eexists. split; vm_compute; reflexivity.
  - vm_compute. reflexivity.
  - reflexivity.
Defined.

Lemma updateHandler_all_triggered_witness :
  updateHandler registry (mkRequest "POST" "k1" None "foo,foo")
  = (mkResponse 200 (TextBody "ok"),
     parseAsRepoList "foo,foo" registry "k1" []).
Proof.
  apply (updateHandler_all_triggered registry
           (mkRequest "POST" "k1" None "foo,foo")).
  - reflexivity.
  - vm_compute. repeat constructor; eexists; split; reflexivity.
Defined.

Lemma searchHandler_results_accessible_witness :
  200 = 200
  /\ exists s, registry !! "bar" = Some s
       /\ CheckAccess (Repo_ s) "k1" [] = true
       /\ Search s "x" (searchOptions searchX)
          = (Some (mkSearchResponse (Some [2%nat]) 5), None).
Proof.
  apply (@searchHandler_results_accessible nat listOrder asciiOnly
           (inOrder nat) registry (mkRequest "GET" "k1" None "*") searchX 40
           200
           (<["foo" := mkSearchResponse (Some [1%nat]) 3]>
            (<["bar" := mkSearchResponse (Some [2%nat]) 5]> ∅))
           (Some (mkStats 8 40)) "bar" (mkSearchResponse (Some [2%nat]) 5)).
  - vm_compute. reflexivity.
  - vm_compute. reflexivity.
Defined.

Lemma searchHandler_error_in_band_witness :
  200 = 200
  /\ exists name s, abc !! name = Some s
       /\ CheckAccess (Repo_ s) EmptyString [] = true
       /\ snd (Search s "x" (searchOptions searchX)) = Some "index closed".
Proof.
  apply (@searchHandler_error_in_band nat listOrder asciiOnly (reversed nat)
           abc (mkRequest "GET" EmptyString None "A,B,C") searchX 40 200
           "index closed").
  vm_compute. reflexivity.
Defined.

(** The search handler on the sample registry: the stats flag is read
    without regard to case, the context lines are capped, and a caller
    without the key sees nothing of bar. *)
Example searchHandler_samples :
  searchOptions searchX = mkSearchOptions true false 20 EmptyString
                            EmptyString 0 50
  /\ @searchHandler nat listOrder asciiOnly (inOrder nat) registry
       (mkRequest "GET" "nokey" None "*") searchX 40
     = ReplyResults 200
         (Some {["foo" := mkSearchResponse (Some [1%nat]) 3]})
         (Some (mkStats 3 40))
  /\ @reposHandler nat listOrder registry (mkRequest "GET" "nokey" None "*")
       !! "bar" = None
  /\ parseAsBool "FoSho" = true /\ parseAsBool "1" = true
  /\ parseAsBool "yes" = false /\ parseAsBool EmptyString = false.
Proof. vm_compute. repeat split; reflexivity. Qed.

Lemma mergeVCSConfigs_frame_witness :
  match Repos sampleConfig !! "svc" with
  | Some repo =>
      exists blob,
        Repos (withRepos
                 (<["svc" := gitRepo (Some depth1timeout30)]>
                  (<["lib" := gitRepo (Some depth5timeout30)]>
                   (<["old" := hgRepo (Some depth1)]> ∅)))
                 sampleConfig) !! "svc"
        = Some (withVcsConfigMessage blob repo)
  | None =>
      Repos (withRepos
               (<["svc" := gitRepo (Some depth1timeout30)]>
                (<["lib" := gitRepo (Some depth5timeout30)]>
                 (<["old" := hgRepo (Some depth1)]> ∅)))
               sampleConfig) !! "svc" = None
  end
  /\ VCSConfigMessages
       (withRepos
          (<["svc" := gitRepo (Some depth1timeout30)]>
           (<["lib" := gitRepo (Some depth5timeout30)]>
            (<["old" := hgRepo (Some depth1)]> ∅)))
          sampleConfig) = VCSConfigMessages sampleConfig
  /\ DbPath
       (withRepos
          (<["svc" := gitRepo (Some depth1timeout30)]>
           (<["lib" := gitRepo (Some depth5timeout30)]>
            (<["old" := hgRepo (Some depth1)]> ∅)))
          sampleConfig) = DbPath sampleConfig
  /\ Title
       (withRepos
          (<["svc" := gitRepo (Some depth1timeout30)]>
           (<["lib" := gitRepo (Some depth5timeout30)]>
            (<["old" := hgRepo (Some depth1)]> ∅)))
          sampleConfig) = Title sampleConfig
  /\ MaxConcurrentIndexers
       (withRepos
          (<["svc" := gitRepo (Some depth1timeout30)]>
           (<["lib" := gitRepo (Some depth5timeout30)]>
            (<["old" := hgRepo (Some depth1)]> ∅)))
          sampleConfig) = MaxConcurrentIndexers sampleConfig
  /\ HealthCheckURI
       (withRepos
          (<["svc" := gitRepo (Some depth1timeout30)]>
           (<["lib" := gitRepo (Some depth5timeout30)]>
            (<["old" := hgRepo (Some depth1)]> ∅)))
          sampleConfig) = HealthCheckURI sampleConfig.
Proof.
  apply (@mergeVCSConfigs_frame listOrder flatJSON sampleConfig _ None "svc").
  vm_compute. reflexivity.
Defined.

Lemma mergeVCSConfigs_undecodable_global_witness :
  exists k b e',
    VCSConfigMessages brokenConfig !! k = Some (Some b)
    /\ @Unmarshal flatJSON b = inl e'
    /\ @mergeVCSConfigs listOrder flatJSON brokenConfig
       = Returned brokenConfig (Some e').
Proof.
  apply (@mergeVCSConfigs_undecodable_global listOrder flatJSON brokenConfig
           "git" "{depth:5" "invalid character").
  - vm_compute. reflexivity.
  - vm_compute. reflexivity.
  - intros k Hk.
    destruct (decide (k = "git")) as [->|Hne].
    + vm_compute in Hk. discriminate Hk.
    + unfold brokenConfig in Hk. cbn [VCSConfigMessages] in Hk.
      rewrite lookup_insert_ne, lookup_empty in Hk by congruence.
      discriminate Hk.
Defined.

Lemma mergeVCSConfigs_no_default_witness :
  Repos (withRepos
           (<["svc" := gitRepo (Some depth1timeout30)]>
            (<["lib" := gitRepo (Some depth5timeout30)]>
             (<["old" := hgRepo (Some depth1)]> ∅)))
           sampleConfig) !! "old"
  = Some (hgRepo (Some depth1)).
Proof.
  apply (@mergeVCSConfigs_no_default listOrder flatJSON sampleConfig).
  - vm_compute. reflexivity.
  - vm_compute. reflexivity.
  - vm_compute. reflexivity.
Defined.

Lemma getLinkHeaderLink_next_witness :
  Gitlab.getLinkHeaderLink
    (String.concat ", "
       ([Gitlab.linkEntry page1URL "first"]
        ++ Gitlab.linkEntry page2URL "next"
           :: [Gitlab.linkEntry page2URL "last"]))
  = page2URL.
Proof.
  apply (getLinkHeaderLink_next [Gitlab.linkEntry page1URL "first"]
           [Gitlab.linkEntry page2URL "last"] page2URL).
  - repeat constructor.
  - repeat constructor.
Defined.

Lemma GetProjects_all_pages_witness :
  @Gitlab.GetProjects twoPages 5 sampleGitlab 0%nat
  = (Gitlab.Got
       (inr (concat (map Gitlab.PageProjects [page1; page2]))), 2%nat).
Proof.
  apply (@GetProjects_all_pages twoPages sampleGitlab [page1; page2] 5
           0%nat 2%nat).
  - exists 1%nat. split; [reflexivity|]. split; [reflexivity|].
    split; [discriminate|]. split; [vm_compute; discriminate|].
    exists 2%nat. split; [vm_compute; reflexivity|].
    split; [reflexivity|]. split; [|reflexivity].
    right. vm_compute. reflexivity.
  - simpl. lia.
  - right. simpl. lia.
Defined.

Lemma GetProjects_within_limit_witness :
  Z.of_nat (length (concat (map Gitlab.PageProjects [page1; page2])))
  <= Gitlab.MaxProjects sampleGitlab.
Proof.
  apply (@GetProjects_within_limit twoPages sampleGitlab 5 0%nat 2%nat).
  - vm_compute. reflexivity.
  - discriminate.
Defined.

Lemma GetGitlabRepos_keeps_configured_witness :
  exists repos' skipped net',
    @Gitlab.GetGitlabRepos twoPages 5 sampleGitlab configured 0%nat
    = (Gitlab.Synced repos' skipped, net')
    /\ repos' !! "g / lib"
       = Some (sampleRepo None None "ssh://manual/lib" (Some true)).
Proof.
  eexists _, _, _. split; [vm_compute; reflexivity|].
  eapply (@GetGitlabRepos_keeps_configured twoPages 5 sampleGitlab
            configured _ _ 0%nat _ "g / lib").
  - vm_compute. reflexivity.
  - vm_compute. reflexivity.
Defined.

Lemma GetGitlabRepos_enters_first_witness :
  exists repos' skipped net' projects,
    @Gitlab.GetGitlabRepos twoPages 5 sampleGitlab configured 0%nat
    = (Gitlab.Synced repos' skipped, net')
    /\ @Gitlab.GetProjects twoPages 5 sampleGitlab 0%nat
       = (Gitlab.Got (inr projects), net')
    /\ forall name,
         configured !! name = None ->
         repos' !! name
         = Gitlab.discovered sampleGitlab
             <$> List.find (fun p => String.eqb (Gitlab.Name p) name)
                           projects.
Proof.
  eexists _, _, _.
  assert (Hrun : @Gitlab.GetGitlabRepos twoPages 5 sampleGitlab configured
                   0%nat = (Gitlab.Synced _ _, _))
    by (vm_compute; reflexivity).
  destruct (@GetGitlabRepos_enters_first twoPages 5 sampleGitlab configured
              _ _ 0%nat _ Hrun) as (projects & Hp & Hall).
  exists projects. split; [exact Hrun | split; assumption].
Defined.

(** Discovery on the two-page GitLab: the configured g / lib keeps its
    manual URL and is logged as skipped, g / svc comes from the first page
    (the second page's project of that name is skipped), and both carry
    the template's access key. *)
Example GetGitlabRepos_sample :
  exists repos',
    fst (@Gitlab.GetGitlabRepos twoPages 5 sampleGitlab configured 0%nat)
    = Gitlab.Synced repos' ["g / lib"; "g / svc"]
    /\ Config.Url <$> repos' !! "g / lib" = Some "ssh://manual/lib"
    /\ Config.Url <$> repos' !! "g / svc"
       = Some "https://gitlab.example/g/svc.git"
    /\ Config.Url <$> repos' !! "h / web"
       = Some "https://gitlab.example/h/web.git"
    /\ AccessKeys <$> repos' !! "h / web" = Some (Some ["k1"])
    /\ @Gitlab.GetProjects twoPages 1 sampleGitlab 0%nat
       = (Gitlab.OutOfFuel, 1%nat).
Proof. eexists. split; [vm_compute; reflexivity|]. by vm_compute. Qed.

End MoreSamples.

Section HandlersSafety.
Context {FileMatch : Type} `{MapRange} `{UnicodeLower}.
Implicit Types idx : gmap string (Searcher FileMatch).

Lemma spawn_known (query : string) (opts : SearchOptions)
    (repos : list string) idx :
  Forall (fun name => is_Some (idx !! name)) repos ->
  is_Some (spawn query opts repos idx).
Proof.
  induction 1 as [|name repos [s Hs] _ [rest IH]]; simpl; [eauto|].
  rewrite Hs, IH. destruct (Search s query opts). eauto.
Qed.

Lemma collect_no_panic (l : list (searchResponse FileMatch))
    (results : gmap string (SearchResponse FileMatch))
    (filesOpened duration elapsed : Z) :
  Forall (fun x => err x = None -> is_Some (res x)) l ->
  collect l results filesOpened duration elapsed <> SearchPanicked.
Proof.
  intros Hl. revert results filesOpened.
  induction Hl as [|x l Hx _ IH]; intros results fo; simpl; [discriminate|].
  destruct (err x) as [e|]; [discriminate|].
  destruct (Hx eq_refl) as [sr ->]. destruct (Matches sr); apply IH.
Qed.

(** X26. The fan-out the search handler starts never panics when every
    searcher of the registry keeps to the rule that a search without an
    error has a response: [searchAll] on the names [parseAsRepoList]
    resolved calls no nil searcher, whatever names were requested. (The
    writing of the answer is another matter.) *)
Theorem searchAll_on_resolved_never_panics `{Scheduler FileMatch} idx
    (v accessKey : string) (authRepos : list string) (query : string)
    (opts : SearchOptions) (filesOpened duration elapsed : Z) :
  (forall name s,
     idx !! name = Some s ->
     snd (Search s query opts) = None -> is_Some (fst (Search s query opts))) ->
  searchAll query opts (parseAsRepoList v idx accessKey authRepos) idx
            filesOpened duration elapsed
  <> SearchPanicked.
Proof.
  intros Hrule. unfold searchAll.
  set (repos := parseAsRepoList _ _ _ _).
  destruct (spawn_known query opts repos idx) as [sent Hs].
  { apply Forall_forall. intros name Hin.
    destruct (parseAsRepoList_accessible _ _ _ _ _ Hin) as (s & -> & _).
    eauto. }
  rewrite Hs. apply collect_no_panic.
  apply Forall_forall. intros x Hx He. rewrite completion_perm in Hx.
  destruct (sent_origin _ _ _ _ _ _ Hs Hx) as (_ & s & Hidx & Hsr).
  pose proof (Hrule _ _ Hidx) as Hr.
  rewrite Hsr in Hr. by apply Hr.
Qed.

Lemma updateLoop_triggered idx (repos acc : list string) (name : string) :
  name ∈ snd (updateLoop idx repos acc) ->
  name ∈ acc
  \/ (name ∈ repos /\ exists s, idx !! name = Some s /\ Update s = true).
Proof.
  revert acc. induction repos as [|n repos IH]; intros acc; simpl.
  - by left.
  - destruct (idx !! n) as [s|] eqn:Hs; [|by left].
    destruct (Update s) eqn:Hu; simpl; [|by left].
    intros Hin. apply IH in Hin as [Hin|(Hin & Hex)].
    + apply elem_of_app in Hin as [Hin|Hin]; [by left|].
      apply list_elem_of_singleton in Hin as ->. right.
      split; [left | eauto].
    + right. split; [by right | exact Hex].
Qed.

(** X27. The update handler triggers the update of a repository only when
    the repository is in the registry, passes the access check for the
    caller's key and session, and accepts push updates; this holds also
    when the request ends in a refusal. *)
Theorem updateHandler_triggers_only_accessible idx (r : Request)
    (name : string) :
  name ∈ snd (updateHandler idx r) ->
  exists s, idx !! name = Some s
    /\ CheckAccess (Repo_ s) (HoundAccessKey r) (sessionRepos r) = true
    /\ Update s = true.
Proof.
  unfold updateHandler.
  destruct (negb (String.eqb (Method r) "POST")).
  { intros Hin. by apply elem_of_nil in Hin. }
  fold (sessionRepos r). intros Hin.
  apply updateLoop_triggered in Hin as [Hin|(Hin & s & Hs & Hu)].
  { by apply elem_of_nil in Hin. }
  destruct (parseAsRepoList_accessible _ _ _ _ _ Hin) as (s' & Hs' & Ha).
  exists s. rewrite Hs' in Hs. injection Hs as ->. auto.
Qed.

(** X28. The wildcard resolves to exactly the repositories the repos
    listing shows to the same caller. *)
Theorem wildcard_matches_listing idx (r : Request) (name : string) :
  name ∈ parseAsRepoList "*" idx (HoundAccessKey r) (sessionRepos r)
  <-> is_Some (reposHandler idx r !! name).
Proof.
  unfold parseAsRepoList, reposHandler. cbv zeta.
  replace (TrimSpace "*") with "*" by (vm_compute; reflexivity).
  replace (String.eqb "*" "*") with true by reflexivity.
  rewrite wildcardLoop_filter, reposLoop_lookup by apply range_NoDup.
  rewrite range_to_map, lookup_empty. cbn [app].
  rewrite list_elem_of_In, filter_In, <- list_elem_of_In.
  unfold accessible. split.
  - intros [_ Ha]. destruct (idx !! name) as [s|]; [|discriminate].
    rewrite Ha. eauto.
  - destruct (idx !! name) as [s|] eqn:Hs; [|by intros [? [=]]].
    destruct (CheckAccess (Repo_ s) (HoundAccessKey r) (sessionRepos r));
      [|by intros [? [=]]].
    intros _. split; [|reflexivity].
    apply list_elem_of_fmap. exists (name, s). split; [reflexivity|].
    by apply range_lookup.
Qed.

End HandlersSafety.

Section SafetySamples.
Import Concrete.
Local Existing Instance listOrder.
Local Existing Instance asciiOnly.

Lemma searchAll_on_resolved_never_panics_witness :
  @searchAll nat (reversed nat) "x" noOptions
    (parseAsRepoList "A,B,C,nonexistent" abc EmptyString []) abc 0 0 40
  <> SearchPanicked.
Proof.
  apply (@searchAll_on_resolved_never_panics nat listOrder (reversed nat)
           abc "A,B,C,nonexistent" EmptyString [] "x" noOptions 0 0 40).
  intros name s Hs.
  destruct (decide (name = "A")) as [->|HA];
    [vm_compute in Hs; injection Hs as <-; simpl; eauto|].
  destruct (decide (name = "B")) as [->|HB];
    [vm_compute in Hs; injection Hs as <-; simpl; discriminate|].
  destruct (decide (name = "C")) as [->|HC];
    [vm_compute in Hs; injection Hs as <-; simpl; eauto|].
  unfold abc in Hs.
  rewrite !lookup_insert_ne, lookup_empty in Hs by congruence.
  discriminate Hs.
Defined.

Lemma updateHandler_triggers_only_accessible_witness :
  exists s, registry !! "foo" = Some s
    /\ CheckAccess (Repo_ s) "k1" [] = true
    /\ Update s = true.
Proof.
  apply (@updateHandler_triggers_only_accessible nat listOrder registry
           (mkRequest "POST" "k1" None "foo,bar") "foo").
  vm_compute. left.
Defined.

End SafetySamples.

Section RequestedNames.










Lemma length_revString (s acc : string) :
  String.length (revString s acc)
  = (String.length s + String.length acc)%nat.
Proof.
  revert acc. induction s as [|c s IH]; intros acc; [reflexivity|].
  cbn [revString]. rewrite IH. simpl. lia.
Qed.




End RequestedNames.

Section ResolveRequested.
Context {FileMatch : Type} `{MapRange}.
Implicit Types idx : gmap string (Searcher FileMatch).


End ResolveRequested.

Section ResolveRequestedSamples.
Import Concrete.
Local Existing Instance listOrder.


(** The wildcard with white space around it, and a list in which the
    wildcard is one name among others. *)
Example parseAsRepoList_wildcard_samples :
  parseAsRepoList (" " +:+ String.concat "," ["*"] +:+ "  ") registry "k1" []
    ≡ₚ ["foo"; "bar"]
  /\ parseAsRepoList (String.concat "," ["*"; "foo"]) registry "k1" []
     = ["foo"]
  /\ List.filter (accessible registry "k1" []) ["foo"; "bar"; "nonexistent"]
     = ["foo"; "bar"].
Proof. vm_compute. repeat split; reflexivity. Qed.

End ResolveRequestedSamples.

Section ConfigMergeBytes.
Import Concrete.

(** The merge run on the bytes with numbers decoded to float64: the
    repository's depth 2^53 + 1 is written back as 2^53, beside the timeout
    filled in from the global defaults. *)
Example mergeVCSConfigs_rounds_depth :
  @mergeVCSConfigs listOrder float64JSON bigConfig
  = Returned
      (withRepos (<["svc" := gitRepo (Some depthRoundedTimeout30)]> ∅)
                 bigConfig)
      None.
Proof. vm_compute. reflexivity. Qed.

(** C8 as first stated does not hold: a value present at the repository
    level need not come out of the merge unchanged. The blob is decoded
    and encoded again, and with numbers decoded to float64 the
    repository's depth 9007199254740993, read exactly, is no longer the
    depth of the merged blob. *)
Lemma mergeVCSConfigs_changes_kept_value :
  ~ (forall (cfg cfg' : Config) (name : string) (repo repo' : Repo)
            (blob blob' : string) (vals : gmap string N) (key : string)
            (v : N),
       @mergeVCSConfigs listOrder float64JSON cfg = Returned cfg' None ->
       Repos cfg !! name = Some repo -> VcsConfigMessage repo = Some blob ->
       Repos cfg' !! name = Some repo' ->
       VcsConfigMessage repo' = Some blob' ->
       flatUnmarshal blob = inr (Some vals) -> vals !! key = Some v ->
       exists vals', flatUnmarshal blob' = inr (Some vals')
                     /\ vals' !! key = Some v).
Proof.
  intros Hclaim.
  destruct (Hclaim bigConfig
              (withRepos (<["svc" := gitRepo (Some depthRoundedTimeout30)]> ∅)
                         bigConfig)
              "svc" (gitRepo (Some depthBig))
              (gitRepo (Some depthRoundedTimeout30))
              depthBig depthRoundedTimeout30
              {["depth" := 9007199254740993%N]} "depth"
              9007199254740993%N)
    as (vals' & Hread & Hkey);
    try (vm_compute; reflexivity).
  vm_compute in Hread. injection Hread as <-.
  vm_compute in Hkey. discriminate Hkey.
Qed.

End ConfigMergeBytes.
